(** * Polaris backend: the role similarity engine

    A shallow embedding of [services/role_database.py] (class [RoleDatabase]),
    [services/role_recommender.py] (class [RoleRecommender]) and of the fuzzy
    lookup of [routes.py] ([infer_industry], layer 2), with the properties of
    the specification that concern them; then of the routes of [routes.py],
    of the page generation of [career_advisor.py] and of the startup of
    [config.py] and [app.py], with further properties of the code.

    Conventions of the model
    - a Python [int] is a [Z]; a [str] is a [string] (ASCII text);
    - a role of the JSON document is the record [Role]; a role [dict] living
      in the interpreter is a heap object [role_obj] (the JSON fields plus the
      optional ['distance'] key), designated by its location;
    - the dictionaries [roles_normalized] and [overlaps] are [gmap]s;
    - a Euclidean distance [s ** 0.5] is kept as its exact integer radicand
      [s]: the float square root is increasing, so comparing two distances is
      comparing their radicands;
    - calls that read or write the interpreter state are written in a state
      and exception monad over [world]. *)

From Stdlib Require Import ZArith QArith List String Ascii Lia Permutation Sorted.
From stdpp Require Import base option list gmap strings fin_maps sorting.

Local Open Scope Z_scope.

(** ** Python values *)

(** A role as the JSON document gives it: ['name'] is always read with
    [role['name']], the four metrics with [role.get(key, 5)]. *)
Record Role := mkRole {
  name : string;
  technical : option Z;
  creative : option Z;
  business : option Z;
  customer : option Z
}.

(** The float [s ** 0.5] of an exact integer [s]. *)
Record distance_t := Sqrt { radicand : Z }.

Definition distance_leb (d1 d2 : distance_t) : bool := radicand d1 <=? radicand d2.

#[global] Instance Role_eq_dec : EqDecision Role.
Proof. solve_decision. Defined.

#[global] Instance distance_eq_dec : EqDecision distance_t.
Proof. solve_decision. Defined.

(** A metric 4-tuple [(technical, creative, business, customer)]. *)
Definition metrics_tuple : Type := Z * Z * Z * Z.

(** [(role.get('technical', 5), role.get('creative', 5),
      role.get('business', 5), role.get('customer', 5))] *)
Definition metrics_of (r : Role) : metrics_tuple :=
  (default 5 (technical r), default 5 (creative r),
   default 5 (business r), default 5 (customer r)).

(** [sum((a - b)**2 for a, b in zip(metrics1, metrics2)) ** 0.5] *)
Definition sum_sq (m1 m2 : metrics_tuple) : Z :=
  let '(a1, a2, a3, a4) := m1 in
  let '(b1, b2, b3, b4) := m2 in
  0 + (a1 - b1) ^ 2 + (a2 - b2) ^ 2 + (a3 - b3) ^ 2 + (a4 - b4) ^ 2.

Definition calculate_distance (m1 m2 : metrics_tuple) : distance_t :=
  Sqrt (sum_sq m1 m2).

(** ** Python list operations *)

(** The position a slice bound [i] designates in a list of length [len]:
    negative bounds count from the end, and bounds are clamped. *)
Definition slice_bound (len : nat) (i : Z) : nat :=
  if i <? 0 then Z.to_nat (Z.max 0 (Z.of_nat len + i))
  else Nat.min len (Z.to_nat i).

(** [l[:j]] *)
Definition slice_to {A} (j : Z) (l : list A) : list A :=
  take (slice_bound (length l) j) l.

(** [l[i:]] *)
Definition slice_from {A} (i : Z) (l : list A) : list A :=
  drop (slice_bound (length l) i) l.

(** [list.sort(key=...)] is a stable sort: the element inserted from the
    left goes before the elements of equal key already placed, which came
    after it in the input. *)
Fixpoint insert_by {A} (leb : A → A → bool) (x : A) (l : list A) : list A :=
  match l with
  | [] => [x]
  | y :: l' => if leb x y then x :: l else y :: insert_by leb x l'
  end.

Definition stable_sort {A} (leb : A → A → bool) (l : list A) : list A :=
  foldr (insert_by leb) [] l.

(** ** [RoleDatabase._calculate_overlaps] *)

Definition CLOSE_POOL_SIZE : Z := 15.
Definition ODDBALL_POOL_SIZE : Z := 5.

(** [{'name': d[0], 'distance': d[1]}] *)
Record match_item := mkItem {
  item_name : string;
  item_distance : distance_t
}.

#[global] Instance match_item_eq_dec : EqDecision match_item.
Proof. solve_decision. Defined.

(** [{'close': close_matches, 'oddball': oddball}] *)
Record overlap_entry := mkEntry {
  close : list match_item;
  oddball : list match_item
}.

(** The key of [distances.sort(key=lambda x: x[1])]. *)
Definition by_distance (x y : string * distance_t) : bool :=
  distance_leb x.2 y.2.

Definition to_item (d : string * distance_t) : match_item := mkItem d.1 d.2.

(** The inner loop: the [(other['name'], distance)] of every role whose
    name differs from [role_name], in catalog order. *)
Fixpoint distances_from (role_name : string) (m : metrics_tuple)
    (all_roles : list Role) : list (string * distance_t) :=
  match all_roles with
  | [] => []
  | other :: rest =>
      if String.eqb (name other) role_name then distances_from role_name m rest
      else (name other, calculate_distance m (metrics_of other))
             :: distances_from role_name m rest
  end.

(** [int(self.ODDBALL_POOL_SIZE * 1.6)]: the float product is exactly [8.0]. *)
Definition oddball_pool : Z := (ODDBALL_POOL_SIZE * 16) `div` 10.

(** The body of the outer loop for [role]: the value stored at
    [overlaps[role_name]]. *)
Definition overlaps_of_role (all_roles : list Role) (role : Role) : overlap_entry :=
  let distances := distances_from (name role) (metrics_of role) all_roles in
  let distances := stable_sort by_distance distances in
  let close_matches := to_item <$> slice_to CLOSE_POOL_SIZE distances in
  let oddball_candidates := to_item <$> slice_from (- oddball_pool) distances in
  let oddball := slice_to ODDBALL_POOL_SIZE oddball_candidates in
  mkEntry close_matches oddball.

(** The outer loop: [overlaps[role_name] = {...}] for the roles in order. *)
Definition _calculate_overlaps (all_roles : list Role) : gmap string overlap_entry :=
  foldl (λ overlaps role, <[name role := overlaps_of_role all_roles role]> overlaps)
        ∅ all_roles.

(** ** The interpreter state *)

(** A role [dict] of the running program: the fields of the JSON document
    and, once [role['distance'] = d] has been executed on it, a distance. *)
Record role_obj := mkObj {
  fields :> Role;
  distance : option distance_t
}.

#[global] Instance role_obj_inhabited : Inhabited role_obj :=
  populate (mkObj (mkRole "" None None None None) None).

(** Objects are designated by their location in the heap. *)
Definition loc : Type := nat.

(** What [self.roles_file] designates on disk. *)
Inductive source :=
  | Missing                                (* [roles_file.exists()] is false *)
  | Unparsable                             (* not JSON: [json.load] raises *)
  | NotAnObject                            (* JSON, but no object: no [.get] *)
  | Document (roles : option (list Role)). (* an object, with its ['roles'] *)

Inductive exn :=
  | JSONDecodeError
  | AttributeError
  | KeyError
  | ValueError.

(** The fields of a [RoleDatabase] instance. *)
Record RoleDatabase := mkDb {
  roles_file : source;
  _roles_normalized : option (gmap string string);
  _overlaps : option (gmap string overlap_entry);
  _all_roles : option (list loc)
}.

Record world := mkWorld {
  role_db : RoleDatabase;
  heap : list role_obj;
  stdout : list string;
  rng : list nat
}.

Inductive result (A : Type) :=
  | Ret (a : A)
  | Raise (e : exn).
Arguments Ret {A} a.
Arguments Raise {A} e.

Definition M (A : Type) : Type := world → result A * world.

#[global] Instance M_ret : MRet M := λ A a w, (Ret a, w).
#[global] Instance M_bind : MBind M := λ A B f c w,
  match c w with
  | (Ret a, w') => f a w'
  | (Raise e, w') => (Raise e, w')
  end.

Definition raise {A} (e : exn) : M A := λ w, (Raise e, w).
Definition get_db : M RoleDatabase := λ w, (Ret (role_db w), w).
Definition set_db (db : RoleDatabase) : M unit :=
  λ w, (Ret (), mkWorld db (heap w) (stdout w) (rng w)).

(** [print(s)] *)
Definition print (s : string) : M unit :=
  λ w, (Ret (), mkWorld (role_db w) (heap w) (stdout w ++ [s]) (rng w)).

(** A new [dict] object. *)
Definition alloc (o : role_obj) : M loc :=
  λ w, (Ret (length (heap w)), mkWorld (role_db w) (heap w ++ [o]) (stdout w) (rng w)).

(** Reading the object at [l]. *)
Definition read (l : loc) : M role_obj := λ w, (Ret (heap w !!! l), w).

(** [obj['distance'] = d] on the object at [l]. *)
Definition set_distance (l : loc) (d : distance_t) : M unit :=
  λ w, (Ret (), mkWorld (role_db w)
                  (<[l := mkObj (fields (heap w !!! l)) (Some d)]> (heap w))
                  (stdout w) (rng w)).

Fixpoint mapM {A B} (f : A → M B) (l : list A) : M (list B) :=
  match l with
  | [] => mret []
  | x :: l' => y ← f x; ys ← mapM f l'; mret (y :: ys)
  end.

(** ** Strings: [s.lower().strip()] (ASCII text) *)

Definition lower_char (c : ascii) : ascii :=
  let n := nat_of_ascii c in
  if ((65 <=? n) && (n <=? 90))%nat then ascii_of_nat (n + 32) else c.

(** The ASCII characters for which [str.isspace] holds. *)
Definition is_space (c : ascii) : bool :=
  let n := nat_of_ascii c in
  (((9 <=? n) && (n <=? 13)) || ((28 <=? n) && (n <=? 32)))%nat.

Fixpoint lower (s : string) : string :=
  match s with
  | EmptyString => EmptyString
  | String c s' => String (lower_char c) (lower s')
  end.

Fixpoint lstrip_chars (l : list ascii) : list ascii :=
  match l with
  | [] => []
  | c :: l' => if is_space c then lstrip_chars l' else l
  end.

Definition strip (s : string) : string :=
  string_of_list_ascii
    (rev (lstrip_chars (rev (lstrip_chars (list_ascii_of_string s))))).

(** [role_name.lower().strip()] *)
Definition normalize (s : string) : string := strip (lower s).

(** ** [RoleDatabase]: loading *)

Definition warning_not_found : string := "Warning: roles file not found".

(** [with open(self.roles_file) as f: data = json.load(f)] followed by
    [data.get('roles', [])]. *)
Definition json_load_roles (src : source) : M (list Role) :=
  match src with
  | Missing => mret []      (* guarded by the callers *)
  | Unparsable => raise JSONDecodeError
  | NotAnObject => raise AttributeError
  | Document roles => mret (default [] roles)
  end.

Definition file_exists (src : source) : bool :=
  match src with Missing => false | _ => true end.

(** The loop [role_map[role_name.lower().strip()] = role_name]. *)
Definition role_map_of (roles : list Role) : gmap string string :=
  foldl (λ role_map role_obj, <[normalize (name role_obj) := name role_obj]> role_map)
        ∅ roles.

Definition _load_normalized : M (gmap string string) :=
  db ← get_db;
  if negb (file_exists (roles_file db)) then
    _ ← print warning_not_found;
    mret ∅
  else
    roles ← json_load_roles (roles_file db);
    mret (role_map_of roles).

(** [json.load] builds one [dict] per role of the document. *)
Definition _load_all_roles : M (list loc) :=
  db ← get_db;
  if negb (file_exists (roles_file db)) then mret []
  else
    roles ← json_load_roles (roles_file db);
    mapM (λ r, alloc (mkObj r None)) roles.

(** The lazily loaded properties. *)
Definition all_roles : M (list loc) :=
  db ← get_db;
  match _all_roles db with
  | Some locs => mret locs
  | None =>
      locs ← _load_all_roles;
      db ← get_db;
      _ ← set_db (mkDb (roles_file db) (_roles_normalized db) (_overlaps db) (Some locs));
      mret locs
  end.

Definition roles_normalized : M (gmap string string) :=
  db ← get_db;
  match _roles_normalized db with
  | Some m => mret m
  | None =>
      m ← _load_normalized;
      db ← get_db;
      _ ← set_db (mkDb (roles_file db) (Some m) (_overlaps db) (_all_roles db));
      mret m
  end.

(** [_calculate_overlaps] reads the roles through [self.all_roles]. *)
Definition calculate_overlaps_M : M (gmap string overlap_entry) :=
  locs ← all_roles;
  objs ← mapM read locs;
  mret (_calculate_overlaps (fields <$> objs)).

Definition overlaps : M (gmap string overlap_entry) :=
  db ← get_db;
  match _overlaps db with
  | Some o => mret o
  | None =>
      o ← calculate_overlaps_M;
      db ← get_db;
      _ ← set_db (mkDb (roles_file db) (_roles_normalized db) (Some o) (_all_roles db));
      mret o
  end.

(** [routes.init_role_database]: both [len(db.roles_normalized)] and
    [len(db.overlaps)] are evaluated at startup, then printed (the messages
    are kept without the two numbers). *)
Definition init_role_database : M unit :=
  m ← roles_normalized;
  o ← overlaps;
  _ ← print "Loaded tech roles into database";
  print "Calculated overlaps for roles".

(** ** The [random] module

    [random.sample(population, k)] raises [ValueError] unless
    [0 <= k <= len(population)], and otherwise returns [k] elements taken at
    pairwise distinct positions; [random.shuffle(x)] permutes [x].  The
    generator is the list of the numbers it will draw (0 once the list is
    exhausted), each reduced modulo the number of elements left. *)

Fixpoint draw {A} (k : nat) (pool : list A) (rs : list nat) : list A * list nat :=
  match k with
  | O => ([], rs)
  | S k' =>
      let j := (hd 0 rs `mod` length pool)%nat in
      match pool !! j with
      | Some x =>
          let '(picked, rs') := draw k' (delete j pool) (tl rs) in
          (x :: picked, rs')
      | None => ([], rs)
      end
  end.

Definition random_sample {A} (population : list A) (k : Z) : M (list A) :=
  if (k <? 0) || (Z.of_nat (length population) <? k)
  then raise ValueError
  else λ w,
    let '(picked, rs') := draw (Z.to_nat k) population (rng w) in
    (Ret picked, mkWorld (role_db w) (heap w) (stdout w) rs').

Definition random_shuffle {A} (x : list A) : M (list A) :=
  λ w,
    let '(picked, rs') := draw (length x) x (rng w) in
    (Ret picked, mkWorld (role_db w) (heap w) (stdout w) rs').

(** ** [RoleRecommender] *)

Definition TOTAL_MAP_ROLES : Z := 27.
Definition CLOSE_MATCHES_COUNT : Z := 20.
Definition ODDBALL_COUNT : Z := 7.

(** The returned [dict]: ["roles"] and ["personalized"] are always present,
    ["current_role"] and ["edge_case"] only on the personalized paths. *)
Record response := mkResponse {
  roles : list loc;
  personalized : bool;
  current_role : option string;
  edge_case : option bool
}.

(** [next((r for r in all_roles if r['name'] == role_name), None)] *)
Fixpoint next_named (role_name : string) (locs : list loc) : M (option loc) :=
  match locs with
  | [] => mret None
  | r :: rest =>
      o ← read r;
      if String.eqb (name (fields o)) role_name then mret (Some r)
      else next_named role_name rest
  end.

(** The loop [for sel in selected_roles[:count]], common to both
    personalized paths.  A role [dict] has a ['name'], hence is truthy. *)
Fixpoint with_distances (selected : list match_item) : M (list loc) :=
  match selected with
  | [] => mret []
  | sel :: rest =>
      locs ← all_roles;
      role_obj ← next_named (item_name sel) locs;
      match role_obj with
      | Some r =>
          o ← read r;
          role_with_distance ← alloc o;                        (* [role_obj.copy()] *)
          _ ← set_distance role_with_distance (item_distance sel);
          roles_to_show ← with_distances rest;
          mret (role_with_distance :: roles_to_show)
      | None => with_distances rest
      end
  end.

(** [random.sample(close, min(CLOSE_MATCHES_COUNT, len(close)))], the same
    for [oddball], concatenation, shuffle and truncation. *)
Definition select_roles (entry : overlap_entry) (count : Z) : M (list match_item) :=
  selected_close ←
    random_sample (close entry) (Z.min CLOSE_MATCHES_COUNT (Z.of_nat (length (close entry))));
  selected_oddball ←
    random_sample (oddball entry) (Z.min ODDBALL_COUNT (Z.of_nat (length (oddball entry))));
  selected_roles ← random_shuffle (selected_close ++ selected_oddball);
  mret (slice_to count selected_roles).

Definition _get_roles_from_database (normalized_role : string) (count : Z) : M response :=
  index ← roles_normalized;
  match index !! normalized_role with
  | None => raise KeyError
  | Some canonical_role =>
      table ← overlaps;
      match table !! canonical_role with
      | None => mret (mkResponse [] false None None)
      | Some entry =>
          selected ← select_roles entry count;
          roles_to_show ← with_distances selected;
          mret (mkResponse roles_to_show true (Some canonical_role) None)
      end
  end.

(** [metrics.get(key, 5)] *)
Definition metrics_get (metrics : gmap string Z) (key : string) : Z :=
  default 5 (metrics !! key).

Definition calculate_overlaps_on_fly (role_metrics : metrics_tuple)
    (close_count oddball_count : option Z) : M overlap_entry :=
  let close_count := default CLOSE_MATCHES_COUNT close_count in
  let oddball_count := default ODDBALL_COUNT oddball_count in
  locs ← all_roles;
  others ← mapM read locs;
  let distances :=
    (λ other : role_obj,
       (name other, calculate_distance role_metrics (metrics_of other))) <$> others in
  let distances := stable_sort by_distance distances in
  let close_matches := to_item <$> slice_to close_count distances in
  let oddball_candidates := to_item <$> slice_from (-10) distances in
  let oddball := slice_to oddball_count oddball_candidates in
  mret (mkEntry close_matches oddball).

Definition _get_roles_from_metrics (metrics : gmap string Z) (current_role : string)
    (count : Z) : M response :=
  let role_metrics_tuple :=
    (metrics_get metrics "technical", metrics_get metrics "creative",
     metrics_get metrics "business", metrics_get metrics "customer") in
  entry ← calculate_overlaps_on_fly role_metrics_tuple None None;
  selected ← select_roles entry count;
  roles_to_show ← with_distances selected;
  mret (mkResponse roles_to_show true (Some current_role) (Some true)).

(** [random.sample(all_roles, min(count, len(all_roles)))], written twice in
    [get_personalized_roles]. *)
Definition random_roles (count : Z) : M response :=
  population ← all_roles;
  locs ← all_roles;
  roles_to_show ← random_sample population (Z.min count (Z.of_nat (length locs)));
  mret (mkResponse roles_to_show false None None).

(** Truthiness of the arguments: [None] and [""] are falsy, as are [None]
    and the empty [dict]. *)
Definition truthy_str (s : option string) : bool :=
  match s with
  | Some s => negb (String.eqb s "")
  | None => false
  end.

Definition truthy_dict (d : option (gmap string Z)) : bool :=
  match d with
  | Some m => negb (bool_decide (m = ∅))
  | None => false
  end.

Definition get_personalized_roles (current_role : option string)
    (metrics : option (gmap string Z)) (count : Z) : M response :=
  if negb (truthy_str current_role) then random_roles count
  else
    let current_role := default "" current_role in
    let normalized := normalize current_role in
    index ← roles_normalized;
    if bool_decide (is_Some (index !! normalized)) then
      _get_roles_from_database normalized count
    else if truthy_dict metrics then
      _get_roles_from_metrics (default ∅ metrics) current_role count
    else random_roles count.

(** The role that [next((r for r in all_roles if r['name'] == role_name), None)]
    finds, as a value. *)
Definition role_named (catalog : list Role) (role_name : string) : option Role :=
  find (λ r, String.eqb (name r) role_name) catalog.

(** ** [difflib]

    [SequenceMatcher(None, a, b)] without junk: [isjunk] is [None], and the
    automatic junk heuristic only applies to a second sequence of 200
    elements or more, where the route admits at most 100 characters. *)

(** The next row of [j2len]: [newj2len[j] = j2len.get(j - 1, 0) + 1] at the
    positions [j] where [b[j]] is the element [c] of [a], and nothing (0)
    elsewhere. *)
Definition next_row (c : ascii) (b : list ascii) (j2len : list nat) : list nat :=
  zip_with (λ bj k, if Ascii.eqb c bj then S k else O) b (O :: j2len).

(** [if k > bestsize: besti, bestj, bestsize = i-k+1, j-k+1, k], for [j]
    ascending. *)
Fixpoint scan_row (i j : nat) (row : list nat) (best : nat * nat * nat)
    : nat * nat * nat :=
  match row with
  | [] => best
  | k :: row' =>
      scan_row i (S j) row'
        (if (best.2 <? k)%nat then ((i + 1 - k)%nat, (j + 1 - k)%nat, k) else best)
  end.

(** The loop [for i in range(alo, ahi)]. *)
Fixpoint longest_from (i : nat) (a b : list ascii) (j2len : list nat)
    (best : nat * nat * nat) : nat * nat * nat :=
  match a with
  | [] => best
  | c :: a' =>
      let newj2len := next_row c b j2len in
      longest_from (S i) a' b newj2len (scan_row i 0 newj2len best)
  end.

(** [find_longest_match] on the two windows: [(besti, bestj, bestsize)]. *)
Definition find_longest_match (a b : list ascii) : nat * nat * nat :=
  longest_from 0 a b (repeat O (length b)) (O, O, O).

(** The total size of [get_matching_blocks()]: the longest block, then the
    blocks to its left and to its right. *)
Fixpoint matching_size (fuel : nat) (a b : list ascii) : nat :=
  match fuel with
  | O => O
  | S fuel' =>
      let '(i, j, k) := find_longest_match a b in
      if (k =? 0)%nat then O
      else (matching_size fuel' (take i a) (take j b) + k
            + matching_size fuel' (drop (i + k) a) (drop (j + k) b))%nat
  end.

Definition matches (a b : string) : nat :=
  let a := list_ascii_of_string a in
  let b := list_ascii_of_string b in
  matching_size (length a) a b.

(** [ratio()]: [2.0 * matches / length], and [1.0] for two empty sequences;
    kept as the exact fraction, which the float division rounds
    monotonically. *)
Definition ratio (a b : string) : Q :=
  let total := (String.length a + String.length b)%nat in
  match total with
  | O => 1%Q
  | S _ => Qmake (2 * Z.of_nat (matches a b)) (Pos.of_nat total)
  end.

(** The order of the pairs [(score, x)]. *)
Definition scored_lt (p q : Q * string) : bool :=
  match Qcompare p.1 q.1 with
  | Lt => true
  | Gt => false
  | Eq => String.ltb p.2 q.2
  end.

(** [max(result)]: the first of the greatest pairs. *)
Definition best_of (first : Q * string) (rest : list (Q * string)) : Q * string :=
  foldl (λ best p, if scored_lt best p then p else best) first rest.

(** [get_close_matches(word, possibilities, n=1, cutoff)]: [word] is the
    second sequence; the possibilities scoring at least [cutoff] are kept
    ([real_quick_ratio] and [quick_ratio] are upper bounds of [ratio], tested
    first to save time), and [heapq.nlargest(1, result)] is their maximum. *)
Definition scored (word : string) (cutoff : Q) (x : string) : option (Q * string) :=
  if Qle_bool cutoff (ratio x word) then Some (ratio x word, x) else None.

Definition get_close_matches (word : string) (possibilities : list string)
    (cutoff : Q) : list string :=
  let result := omap (scored word cutoff) possibilities in
  match result with
  | [] => []
  | p :: rest => [(best_of p rest).2]
  end.

(** ** [routes.infer_industry]: the lookups before the AI inference *)

Definition FUZZY_CUTOFF : Q := Qmake 85 100.

(** [db.roles_normalized.keys()] *)
Definition keys (index : gmap string string) : list string :=
  (map_to_list index).*1.

(** Layer 2: [get_close_matches(normalized, keys, n=1, cutoff=0.85)], then
    [db.roles_normalized[fuzzy_matches[0]]]. *)
Definition fuzzy_match (index : gmap string string) (normalized : string)
    : option string :=
  match get_close_matches normalized (keys index) FUZZY_CUTOFF with
  | [] => None
  | best :: _ => index !! best
  end.

Inductive industry_lookup :=
  | TooShort
  | TooLong
  | FromDatabase (role : string)
  | FromFuzzyMatch (role : string)
  | AskAI.

(** The route up to layer 3, on the index and the roles of the database. *)
Definition infer_industry_lookup (index : gmap string string) (all_roles : list Role)
    (role : string) : industry_lookup :=
  let normalized := normalize role in
  if (String.length normalized <? 2)%nat then TooShort
  else if (100 <? String.length normalized)%nat then TooLong
  else
    let layer2 :=
      match fuzzy_match index normalized with
      | Some matched_role =>
          match role_named all_roles matched_role with
          | Some _ => FromFuzzyMatch matched_role
          | None => AskAI
          end
      | None => AskAI
      end in
    match index !! normalized with
    | Some canonical_role =>
        match role_named all_roles canonical_role with
        | Some _ => FromDatabase canonical_role
        | None => layer2
        end
    | None => layer2
    end.

(** ** [routes]: the responses of the endpoints *)




(** The bodies of [POST /api/infer-industry]. *)
Inductive industry_body :=
  | IndustryError (message : string)
  | IndustryFound (role : string) (confidence : Q) (source_tag : string)
      (original_input : option string) (metrics : metrics_tuple)
  | IndustryException (e : exn).

(** [infer_industry]: [data] is [None] without a truthy JSON body,
    [Some None] for a body without ['role'].  Layer 3 calls
    [llm_analyzer.infer_industry(role)] on the [LLMCareerAnalyzer] that
    [app.initialize_analyzers] installs; the class defines no such method, so
    the call raises [AttributeError], which the handler turns into status
    500. *)
Definition infer_industry (index : gmap string string) (all_roles : list Role)
    (data : option (option string)) : Z * industry_body :=
  match data with
  | None | Some None => (400, IndustryError "Missing required field: role")
  | Some (Some role) =>
      let normalized := normalize role in
      if (String.length normalized <? 2)%nat then
        (400, IndustryError "Role name too short")
      else if (100 <? String.length normalized)%nat then
        (400, IndustryError "Role name too long")
      else
        let layer3 := (500, IndustryException AttributeError) in
        let layer2 :=
          match get_close_matches normalized (keys index) FUZZY_CUTOFF with
          | [] => layer3
          | best :: _ =>
              match index !! best with
              | None => (500, IndustryException KeyError)
              | Some matched_role =>
                  match role_named all_roles matched_role with
                  | Some role_obj =>
                      (200, IndustryFound matched_role (Qmake 95 100) "fuzzy_match"
                              (Some role) (metrics_of role_obj))
                  | None => layer3
                  end
              end
          end in
        match index !! normalized with
        | Some canonical_role =>
            match role_named all_roles canonical_role with
            | Some role_obj =>
                (200, IndustryFound canonical_role 1%Q "database" None
                        (metrics_of role_obj))
            | None => layer2
            end
        | None => layer2
        end
  end.

(** ** [career_advisor]: the limits on generated content

    The pages are the JSON objects the prompt asks for: the fields read by
    the code hold strings and lists of strings. *)

(** [s.split()]: the maximal runs of characters that are not whitespace. *)
Fixpoint split_ws (s : string) : list string :=
  match s with
  | EmptyString => []
  | String c s' =>
      if is_space c then split_ws s'
      else
        match s' with
        | EmptyString => [String c EmptyString]
        | String c' _ =>
            if is_space c' then String c EmptyString :: split_ws s'
            else
              match split_ws s' with
              | w :: ws => String c w :: ws
              | [] => [String c EmptyString]
              end
        end
  end.

(** [text[:keep] + '...'] when [len(text) > limit], else [text]. *)
Definition ellipsize (limit keep : nat) (text : string) : string :=
  if (limit <? String.length text)%nat then substring 0 keep text +:+ "..."
  else text.

(** [' '.join(words[:4])] when there are more than 4 words, else [skill]. *)
Definition shorten_skill (skill : string) : string :=
  let words := split_ws skill in
  if (4 <? length words)%nat then String.concat " " (take 4 words) else skill.

(** [while len(l) < n: l.append(filler)] *)
Definition pad_to {A} (n : nat) (filler : A) (l : list A) : list A :=
  l ++ replicate (n - length l) filler.

(** A page [dict]: the keys the code reads, each possibly absent, and the
    other keys (['salary'], ['degree'], ['source']). *)
Record page := mkPage {
  page_type : option string;
  description : option string;
  tasks : option (list string);
  skills : option (list string);
  explanation : option string;
  other_keys : list (string * string)
}.

(** An element of ['pages']: a [dict], or anything else. *)
Inductive page_item :=
  | NotADict
  | PageDict (p : page).

(** The parsed response: [result.get('pages', [])]. *)
Record pages_result := mkPages {
  pages : option (list page_item)
}.

Definition filler_task : string :=
  "Collaborate with team members on projects and tasks.".
Definition filler_skill : string := "Core Skills".

(** The body of the loop of [_enforce_content_limits] for a [dict]: the
    three tests on [page.get('type')], in order. *)
Definition enforce_page (p : page) : page :=
  let p :=
    if bool_decide (page_type p = Some "overview") then
      let desc := default "" (description p) in
      if (150 <? String.length desc)%nat then
        mkPage (page_type p) (Some (substring 0 147 desc +:+ "..."))
               (tasks p) (skills p) (explanation p) (other_keys p)
      else p
    else p in
  let p :=
    if bool_decide (page_type p = Some "day_in_life") then
      let truncated_tasks := ellipsize 100 97 <$> take 5 (default [] (tasks p)) in
      mkPage (page_type p) (description p) (Some (pad_to 5 filler_task truncated_tasks))
             (skills p) (explanation p) (other_keys p)
    else p in
  if bool_decide (page_type p = Some "sweet_spots")
     || bool_decide (page_type p = Some "areas_for_growth") then
    let truncated_skills := shorten_skill <$> take 7 (default [] (skills p)) in
    let p := mkPage (page_type p) (description p) (tasks p)
                    (Some (pad_to 7 filler_skill truncated_skills))
                    (explanation p) (other_keys p) in
    let expl := default "" (explanation p) in
    if (150 <? String.length expl)%nat then
      mkPage (page_type p) (description p) (tasks p) (skills p)
             (Some (substring 0 147 expl +:+ "...")) (other_keys p)
    else p
  else p.

(** [if not isinstance(page, dict): continue] *)
Definition enforce_item (item : page_item) : page_item :=
  match item with
  | NotADict => NotADict
  | PageDict p => PageDict (enforce_page p)
  end.

Definition _enforce_content_limits (result : pages_result) : pages_result :=
  match pages result with
  | Some ps => mkPages (Some (enforce_item <$> ps))
  | None => result
  end.

(** [_get_fallback_pages]; [user_skills or []] makes [None] the empty list. *)
Definition _get_fallback_pages (role_name current_role : string)
    (user_skills : option (list string)) : pages_result :=
  let user_skills := default [] user_skills in
  let '(sweet_spot_skills, sweet_spot_explanation) :=
    match user_skills with
    | _ :: _ =>
        let sweet_spot_skills := take 5 user_skills in
        (sweet_spot_skills,
         "Your skills in " +:+ String.concat ", " (take 3 sweet_spot_skills)
           +:+ " provide a strong foundation for " +:+ role_name +:+ ".")
    | [] =>
        (["Problem Solving"; "Communication"; "Technical Skills"; "Collaboration";
          "Analytical Thinking"],
         "Your background in " +:+ current_role
           +:+ " provides foundational skills that transfer to " +:+ role_name +:+ ".")
    end in
  let sweet_spot_skills := pad_to 7 filler_skill sweet_spot_skills in
  mkPages (Some
    [PageDict (mkPage (Some "overview")
       (Some ("A " +:+ role_name +:+ " is a professional role in the tech industry."))
       None None None
       [("salary", "$80k - $120k"); ("degree", "Bachelor's degree");
        ("source", "Bureau of Labor Statistics")]);
     PageDict (mkPage (Some "day_in_life") None
       (Some ["Complete assigned tasks and projects";
              "Collaborate with team members";
              "Participate in meetings and reviews";
              "Document work and progress";
              "Solve technical problems"])
       None None []);
     PageDict (mkPage (Some "sweet_spots") None None
       (Some (take 7 sweet_spot_skills))
       (Some (substring 0 150 sweet_spot_explanation)) []);
     PageDict (mkPage (Some "areas_for_growth") None None
       (Some ["Advanced Technical"; "Industry Knowledge"; "Leadership";
              "Project Management"; "Strategic Thinking"; "Communication"; "Analytics"])
       (Some (substring 0 150
                ("To excel as a " +:+ role_name
                   +:+ ", develop expertise in specialized areas beyond "
                   +:+ current_role +:+ "."))) [])]).

(** A word: not empty, no whitespace. *)
Fixpoint no_space (w : string) : bool :=
  match w with
  | EmptyString => true
  | String c w' => negb (is_space c) && no_space w'
  end.

Definition is_word (w : string) : Prop := w ≠ EmptyString ∧ no_space w = true.

(** A page that [_enforce_content_limits] has nothing to change in. *)
Definition within_limits (p : page) : Prop :=
  (page_type p = Some "overview" →
     (String.length (default "" (description p)) ≤ 150)%nat) ∧
  (page_type p = Some "day_in_life" →
     ∃ ts, tasks p = Some ts ∧ length ts = 5%nat ∧
           Forall (λ t, String.length t ≤ 100)%nat ts) ∧
  (page_type p = Some "sweet_spots" ∨ page_type p = Some "areas_for_growth" →
     (∃ ss, skills p = Some ss ∧ length ss = 7%nat ∧
            Forall (λ s, length (split_ws s) ≤ 4)%nat ss) ∧
     (String.length (default "" (explanation p)) ≤ 150)%nat).

Definition item_within_limits (item : page_item) : Prop :=
  match item with
  | NotADict => True
  | PageDict p => within_limits p
  end.

(** ** [career_advisor]: generated pages

    [generate_content] stands for the text of the answer of the model,
    [self.model.generate_content(prompt).text], to the prompt built from the
    arguments of the method, and is [None] when the call raises; [json_loads]
    is [json.loads], [None] for a [JSONDecodeError], on answers that hold
    pages. *)

(** [sep in s] *)
Fixpoint contains (sep s : string) : bool :=
  String.prefix sep s ||
  match s with
  | EmptyString => false
  | String _ s' => contains sep s'
  end.

(** [s.split(sep)] for a separator that is not empty: the pieces between the
    occurrences of [sep], found from left to right; [skip] counts the
    characters of the current occurrence that are still to pass. *)
Fixpoint split_from (sep : string) (skip : nat) (s : string) : list string :=
  match s with
  | EmptyString => [""]
  | String c s' =>
      match skip with
      | S skip' => split_from sep skip' s'
      | O =>
          if String.prefix sep s
          then "" :: split_from sep (String.length sep - 1) s'
          else
            match split_from sep 0 s' with
            | piece :: pieces => String c piece :: pieces
            | [] => [String c ""]
            end
      end
  end.

Definition str_split (sep s : string) : list string := split_from sep 0 s.

(** [parts[i]] *)
Definition part (i : nat) (parts : list string) : string := nth i parts "".

(** The extraction of the JSON text from a fenced code block, as it follows
    [result_text = response.text.strip()] in the methods of the analyzer. *)
Definition extract_json_block (result_text : string) : string :=
  if contains "```json" result_text then
    strip (part 0 (str_split "```" (part 1 (str_split "```json" result_text))))
  else if contains "```" result_text then
    strip (part 0 (str_split "```" (part 1 (str_split "```" result_text))))
  else result_text.

(** [generate_role_pages]: the prompt reads [metrics.get] before the [try],
    so metrics that are [None] raise [AttributeError]; inside the [try] every
    exception gives the fallback pages. *)
Definition generate_role_pages
    (generate_content : string → option string → gmap string Z → list string
                        → option string)
    (json_loads : string → option pages_result)
    (role_name : string) (current_role : option string)
    (metrics : option (gmap string Z)) (user_skills : option (list string))
    : result pages_result :=
  let user_skills := default [] user_skills in
  match metrics with
  | None => Raise AttributeError
  | Some metrics =>
      let fallback :=
        _get_fallback_pages role_name (default "None" current_role) (Some user_skills) in
      match generate_content role_name current_role metrics user_skills with
      | None => Ret fallback
      | Some text =>
          let result_text := extract_json_block (strip text) in
          match json_loads result_text with
          | None => Ret fallback
          | Some result => Ret (_enforce_content_limits result)
          end
      end
  end.




(** ** Startup: [config.py] and [app.py]

    [environ] is [os.environ].  The class attributes of [config.py] read it
    when the module is imported and [create_app] reads it when it runs; the
    environment is taken to be the same at both times.  The calls into
    Flask, [logging], [flask_cors] and [google.generativeai], and the
    creation of the log directory, are taken to return. *)














(** ** Vocabulary of the properties *)

(** Ascending order of the keys of a sort. *)
Definition key_le {A} (key : A → Z) (x y : A) : Prop := key x ≤ key y.

(** The sort key of [distances.sort(key=lambda x: x[1])]. *)
Definition distance_key (x : string * distance_t) : Z := radicand x.2.

(** The [(name, distance)] pair of [other] seen from the metrics [m]. *)
Definition distance_to (m : metrics_tuple) (other : Role) : string * distance_t :=
  (name other, calculate_distance m (metrics_of other)).



(** The pools of the on-the-fly path, as the specification words them
    (section 4.4, step 3): every catalog role ranked by its distance from the
    supplied metrics; the 20 nearest; the first 7 of the 10 farthest. *)
Definition ranked_all (catalog : list Role) (m : metrics_tuple)
    : list (string * distance_t) :=
  stable_sort by_distance (distance_to m <$> catalog).

Definition spec_on_fly_entry (catalog : list Role) (m : metrics_tuple) : overlap_entry :=
  let ranked := ranked_all catalog m in
  mkEntry
    (to_item <$> take 20 ranked)
    (to_item <$> take 7 (drop (length ranked - 10) ranked)).

(** [(metrics.get('technical', 5), ..., metrics.get('customer', 5))] *)
Definition metrics_tuple_of (metrics : gmap string Z) : metrics_tuple :=
  (metrics_get metrics "technical", metrics_get metrics "creative",
   metrics_get metrics "business", metrics_get metrics "customer").

(** The state of a database whose three properties have been loaded from
    the catalog [catalog]: the role objects are in the heap as the document
    gives them, the index and the overlaps are cached. *)
Definition loaded (catalog : list Role) (w : world) : Prop :=
  ∃ locs,
    _all_roles (role_db w) = Some locs ∧
    (λ l, heap w !! l) <$> locs = (λ r, Some (mkObj r None)) <$> catalog ∧
    _roles_normalized (role_db w) = Some (role_map_of catalog) ∧
    _overlaps (role_db w) = Some (_calculate_overlaps catalog).

(** A database on which nothing has been loaded yet. *)
Definition fresh_world (src : source) (rs : list nat) : world :=
  mkWorld (mkDb src None None None) [] [] rs.

(** The role objects a response designates, read in the heap of [w]. *)
Definition shown (w : world) (r : response) : list role_obj :=
  (λ l, heap w !!! l) <$> roles r.

(** The objects the loop of the personalized paths creates for a list of
    selected items. *)
Definition resolve (catalog : list Role) (selected : list match_item) : list role_obj :=
  omap (λ sel, (λ R, mkObj R (Some (item_distance sel)))
                 <$> role_named catalog (item_name sel)) selected.

(** The world after a call that only allocated [objs] and drew numbers. *)
Definition extended (w : world) (objs : list role_obj) (rs : list nat) : world :=
  mkWorld (role_db w) (heap w ++ objs) (stdout w) rs.

(** A world that differs only by the numbers left in the generator. *)
Definition redrawn (w : world) (rs : list nat) : world :=
  mkWorld (role_db w) (heap w) (stdout w) rs.

(** The three decision paths of [get_personalized_roles] on a database
    loaded from [catalog], with what each returns. *)
Inductive decision_path (catalog : list Role) (w : world) (current : option string)
    (metrics : option (gmap string Z)) (count : Z) : result response * world → Prop :=
  | unpersonalized_path :
      truthy_str current = false ∨
      (role_map_of catalog !! normalize (default "" current) = None ∧
       truthy_dict metrics = false) →
      decision_path catalog w current metrics count (random_roles count w)
  | precomputed_path (s canonical : string) (R : Role)
        (selected : list match_item) (rs : list nat) :
      current = Some s → s ≠ "" →
      role_map_of catalog !! normalize s = Some canonical →
      R ∈ catalog → name R = canonical →
      selected ⊆+ close (overlaps_of_role catalog R)
                   ++ oddball (overlaps_of_role catalog R) →
      (0 ≤ count → (length selected ≤ Z.to_nat count)%nat) →
      decision_path catalog w current metrics count
        (Ret (mkResponse (seq (length (heap w)) (length (resolve catalog selected)))
                         true (Some canonical) None),
         extended w (resolve catalog selected) rs)
  | on_the_fly_path (s : string) (m : gmap string Z)
        (selected : list match_item) (rs : list nat) :
      current = Some s → s ≠ "" →
      role_map_of catalog !! normalize s = None →
      metrics = Some m → m ≠ ∅ →
      selected ⊆+ close (spec_on_fly_entry catalog (metrics_tuple_of m))
                   ++ oddball (spec_on_fly_entry catalog (metrics_tuple_of m)) →
      (0 ≤ count → (length selected ≤ Z.to_nat count)%nat) →
      decision_path catalog w current metrics count
        (Ret (mkResponse (seq (length (heap w)) (length (resolve catalog selected)))
                         true (Some s) (Some true)),
         extended w (resolve catalog selected) rs).

(** Order of two pool entries by their distance. *)
Definition item_le (x y : match_item) : Prop :=
  radicand (item_distance x) ≤ radicand (item_distance y).

(** ** Example catalogs *)

(** A role whose metrics are all [v]. *)
Definition flat_role (nm : string) (v : Z) : Role :=
  mkRole nm (Some v) (Some v) (Some v) (Some v).


Definition three_roles : list Role :=
  [flat_role "Analyst" 1; flat_role "Designer" 2; flat_role "Tester" 9].

(** [n] roles named ["A"], ["B"], ... (pairwise distinct up to 26), whose
    technical score runs through 1..10. *)
Definition lettered_roles (n : nat) : list Role :=
  (λ i : nat, mkRole (String (ascii_of_nat (65 + i)) "")
                (Some (Z.of_nat (i `mod` 10) + 1)) None None None) <$> seq 0 n.

(** The world after startup on a parsable document. *)
Definition startup (catalog : list Role) (rs : list nat) : world :=
  (init_role_database (fresh_world (Document (Some catalog)) rs)).2.

Definition tech_roles : list Role :=
  [flat_role "Software Engineer" 8; flat_role "Data Scientist" 7;
   flat_role "Product Manager" 4].

(** * Properties *)

(** ** Slices *)

Lemma slice_to_nonneg {A} (j : Z) (l : list A) :
  0 ≤ j → slice_to j l = take (Z.to_nat j) l.
Proof.
  intros Hj. unfold slice_to, slice_bound.
  destruct (Z.ltb_spec j 0) as [?|_]; [lia|].
  destruct (Nat.le_gt_cases (length l) (Z.to_nat j)) as [Hle|Hgt].
  - rewrite Nat.min_l by done. rewrite !take_ge; [done | done | lia].
  - rewrite Nat.min_r by lia. done.
Qed.

Lemma slice_from_neg {A} (k : Z) (l : list A) :
  0 < k → slice_from (- k) l = drop (length l - Z.to_nat k) l.
Proof.
  intros Hk. unfold slice_from, slice_bound.
  destruct (Z.ltb_spec (- k) 0) as [_|?]; [|lia].
  f_equal. lia.
Qed.

Lemma slice_to_sublist {A} (j : Z) (l : list A) : slice_to j l `sublist_of` l.
Proof. apply sublist_take. Qed.

Lemma slice_from_sublist {A} (i : Z) (l : list A) : slice_from i l `sublist_of` l.
Proof. apply sublist_drop. Qed.

Lemma slice_to_length_le {A} (j : Z) (l : list A) :
  0 ≤ j → (length (slice_to j l) ≤ Z.to_nat j)%nat.
Proof. intros Hj. rewrite slice_to_nonneg by done. rewrite length_take. lia. Qed.

Lemma slice_to_length_le_list {A} (j : Z) (l : list A) :
  (length (slice_to j l) ≤ length l)%nat.
Proof. apply sublist_length, slice_to_sublist. Qed.

(** ** The stable sort *)

Section stable_sort_by_key.
Context {A : Type} (key : A → Z).

Let leb (x y : A) : bool := key x <=? key y.

Lemma insert_by_perm x l : insert_by leb x l ≡ₚ x :: l.
Proof.
  induction l as [|y l IH]; simpl; [done|].
  destruct (leb x y); [done|]. rewrite IH. apply Permutation_swap.
Qed.

Lemma stable_sort_perm l : stable_sort leb l ≡ₚ l.
Proof.
  induction l as [|x l IH]; simpl; [done|].
  rewrite insert_by_perm. by rewrite IH.
Qed.

Lemma stable_sort_length l : length (stable_sort leb l) = length l.
Proof. apply Permutation_length, stable_sort_perm. Qed.

Lemma insert_by_sorted x l :
  StronglySorted (key_le key) l → StronglySorted (key_le key) (insert_by leb x l).
Proof.
  induction 1 as [|y l Hs IH Hall]; simpl.
  - repeat constructor.
  - unfold leb at 1. destruct (Z.leb_spec (key x) (key y)) as [Hle|Hgt].
    + constructor; [by constructor|].
      constructor; [done|].
      eapply Forall_impl; [exact Hall|]. unfold key_le. intros; simpl in *; lia.
    + constructor; [done|].
      rewrite insert_by_perm. constructor; [unfold key_le; lia | done].
Qed.

Lemma stable_sort_sorted l : StronglySorted (key_le key) (stable_sort leb l).
Proof.
  induction l as [|x l IH]; simpl; [constructor|]. by apply insert_by_sorted.
Qed.


End stable_sort_by_key.

(** ** The overlap index *)

Lemma distances_from_filter role_name m catalog :
  distances_from role_name m catalog =
  distance_to m <$> filter (λ o, name o ≠ role_name) catalog.
Proof.
  induction catalog as [|o catalog IH]; simpl; [done|].
  rewrite filter_cons.
  destruct (String.eqb_spec (name o) role_name) as [Heq|Hne].
  - rewrite decide_False by (intros ?; done). done.
  - rewrite decide_True by done. simpl. by rewrite IH.
Qed.

Lemma distances_from_names role_name m catalog :
  Forall (λ d, d.1 ≠ role_name) (distances_from role_name m catalog).
Proof.
  rewrite distances_from_filter. apply Forall_forall. intros d Hd.
  apply list_elem_of_fmap in Hd as (o & -> & Ho).
  apply list_elem_of_filter in Ho as [Hne _]. done.
Qed.

Lemma filter_Forall_id {A} (P : A → Prop) `{!∀ x, Decision (P x)} (l : list A) :
  Forall P l → filter P l = l.
Proof.
  induction 1 as [|x l Hx _ IH]; [done|].
  rewrite filter_cons_True by done. by rewrite IH.
Qed.

Lemma filter_other_names (catalog : list Role) i R :
  NoDup (name <$> catalog) → catalog !! i = Some R →
  filter (λ o, name o ≠ name R) catalog = delete i catalog.
Proof.
  revert i. induction catalog as [|o catalog IH]; intros i Hnd Hi; [done|].
  rewrite fmap_cons in Hnd. apply NoDup_cons in Hnd as [Hnotin Hnd].
  rewrite filter_cons. destruct i as [|i]; simpl in Hi.
  - injection Hi as ->. rewrite decide_False by (intros ?; done). simpl.
    apply filter_Forall_id, Forall_forall. intros o Ho Heq.
    apply Hnotin. rewrite <- Heq. apply list_elem_of_fmap. eauto.
  - rewrite decide_True.
    + simpl. f_equal. by apply IH.
    + intros Heq. apply Hnotin. rewrite Heq.
      apply list_elem_of_fmap. exists R. split; [done|].
      by eapply list_elem_of_lookup_2.
Qed.

Lemma foldl_insert_lookup {V} (kf : Role → string) (vf : Role → V) (l : list Role)
    (m : gmap string V) (k : string) :
  foldl (λ acc r, <[kf r := vf r]> acc) m l !! k =
  match last (filter (λ r, kf r = k) l) with
  | Some r => Some (vf r)
  | None => m !! k
  end.
Proof.
  revert m. induction l as [|r l IH]; intros m; simpl; [done|].
  rewrite IH, filter_cons. destruct (decide (kf r = k)) as [Heq|Hne].
  - rewrite last_cons. destruct (last _); [done|].
    rewrite <- Heq. apply lookup_insert_eq.
  - destruct (last _); [done|]. by apply lookup_insert_ne.
Qed.

(** [overlaps[nm]] is the entry computed for the last role named [nm]. *)
Lemma calculate_overlaps_lookup (catalog : list Role) (nm : string) :
  _calculate_overlaps catalog !! nm =
  overlaps_of_role catalog <$> last (filter (λ r, name r = nm) catalog).
Proof.
  unfold _calculate_overlaps.
  rewrite (foldl_insert_lookup name (overlaps_of_role catalog)).
  destruct (last _); [done|]. apply lookup_empty.
Qed.

(** [roles_normalized[k]] is the name of the last role that normalizes to [k]. *)
Lemma role_map_lookup (catalog : list Role) (k : string) :
  role_map_of catalog !! k =
  name <$> last (filter (λ r, normalize (name r) = k) catalog).
Proof.
  unfold role_map_of.
  rewrite (foldl_insert_lookup (λ r, normalize (name r)) name).
  destruct (last _); [done|]. apply lookup_empty.
Qed.

Lemma last_filter_elem {A} (P : A → Prop) `{!∀ x, Decision (P x)} (l : list A) x :
  last (filter P l) = Some x → x ∈ l ∧ P x.
Proof.
  intros Hlast. apply last_Some_elem_of in Hlast.
  apply list_elem_of_filter in Hlast. tauto.
Qed.

Lemma role_map_canonical (catalog : list Role) (k canonical : string) :
  role_map_of catalog !! k = Some canonical →
  ∃ R, R ∈ catalog ∧ name R = canonical ∧ normalize canonical = k.
Proof.
  rewrite role_map_lookup. intros H.
  destruct (last _) as [R|] eqn:Hlast; [|done]. injection H as <-.
  apply last_filter_elem in Hlast as [? ?]. eauto.
Qed.

(** Every name of the catalog has an overlap entry, computed for a role of
    that name. *)
Lemma overlaps_of_name (catalog : list Role) (R : Role) :
  R ∈ catalog →
  ∃ R', R' ∈ catalog ∧ name R' = name R ∧
    _calculate_overlaps catalog !! name R = Some (overlaps_of_role catalog R').
Proof.
  intros HR. rewrite calculate_overlaps_lookup.
  destruct (last (filter (λ r, name r = name R) catalog)) as [R'|] eqn:Hlast.
  - apply last_filter_elem in Hlast as [? ?]. eauto.
  - apply last_None in Hlast.
    assert (Hin : R ∈ filter (λ r, name r = name R) catalog)
      by (by apply list_elem_of_filter).
    rewrite Hlast in Hin. by apply not_elem_of_nil in Hin.
Qed.

Lemma filter_same_name (catalog : list Role) i R :
  NoDup (name <$> catalog) → catalog !! i = Some R →
  filter (λ o, name o = name R) catalog = [R].
Proof.
  revert i. induction catalog as [|o catalog IH]; intros i Hnd Hi; [done|].
  rewrite fmap_cons in Hnd. apply NoDup_cons in Hnd as [Hnotin Hnd].
  rewrite filter_cons. destruct i as [|i]; simpl in Hi.
  - injection Hi as ->. rewrite decide_True by done. f_equal.
    destruct (filter _ catalog) as [|o' l'] eqn:Hf; [done|].
    assert (Ho' : o' ∈ filter (λ o, name o = name R) catalog)
      by (rewrite Hf; left).
    apply list_elem_of_filter in Ho' as [Heq Ho']. exfalso.
    apply Hnotin. rewrite <- Heq. apply list_elem_of_fmap. eauto.
  - rewrite decide_False; [by eapply IH|].
    intros Heq. apply Hnotin. rewrite Heq.
    apply list_elem_of_fmap. exists R. split; [done|].
    by eapply list_elem_of_lookup_2.
Qed.





(** ** Disjointness of the two pools *)

Lemma take_drop_disjoint {A B} (f : A → B) (l : list A) (k1 k2 : nat) x y :
  NoDup (f <$> l) → (k1 ≤ k2)%nat →
  x ∈ take k1 l → y ∈ drop k2 l → f x ≠ f y.
Proof.
  intros Hnd Hk Hx Hy Heq.
  rewrite <- (take_drop k1 l), fmap_app in Hnd.
  apply NoDup_app in Hnd as (_ & Hdisj & _).
  apply (Hdisj (f x)).
  - apply list_elem_of_fmap. eauto.
  - rewrite Heq. apply list_elem_of_fmap. exists y. split; [done|].
    replace k2 with (k1 + (k2 - k1))%nat in Hy by lia.
    rewrite <- drop_drop in Hy.
    by apply subseteq_drop in Hy.
Qed.

Lemma ranked_names_NoDup (catalog : list Role) role_name m :
  NoDup (name <$> catalog) →
  NoDup ((λ d, d.1) <$> stable_sort by_distance (distances_from role_name m catalog)).
Proof.
  intros Hnd.
  rewrite (stable_sort_perm distance_key), distances_from_filter, <- list_fmap_compose.
  eapply sublist_NoDup; [exact Hnd|].
  apply (fmap_sublist name), sublist_filter.
Qed.

Lemma ranked_length (catalog : list Role) i R :
  NoDup (name <$> catalog) → catalog !! i = Some R →
  length (stable_sort by_distance (distances_from (name R) (metrics_of R) catalog))
  = (length catalog - 1)%nat.
Proof.
  intros Hnd Hi.
  rewrite (stable_sort_length distance_key), distances_from_filter, length_fmap.
  rewrite (filter_other_names _ i) by done. apply length_delete. eauto.
Qed.

(** C4, as stated, at a catalog of 16 roles with pairwise distinct names:
    both pool sizes, 15 and 8, are smaller than the catalog size, yet the 15
    other roles are all close matches and the oddball matches are among
    them. *)
Lemma C4_counterexample_sixteen_roles :
  NoDup (name <$> lettered_roles 16) ∧
  (15 < length (lettered_roles 16))%nat ∧ (8 < length (lettered_roles 16))%nat ∧
  lettered_roles 16 !! 0%nat = Some (mkRole "A" (Some 1) None None None) ∧
  ∃ entry, _calculate_overlaps (lettered_roles 16) !! "A" = Some entry ∧
    item_name <$> close entry
      = ["K"; "B"; "L"; "C"; "M"; "D"; "N"; "E"; "O"; "F"; "P"; "G"; "H"; "I"; "J"] ∧
    item_name <$> oddball entry = ["E"; "O"; "F"; "P"; "G"] ∧
    ¬ (∀ x y, x ∈ close entry → y ∈ oddball entry → item_name x ≠ item_name y).
Proof.
  split; [apply (bool_decide_unpack _); by vm_compute|].
  split; [vm_compute; lia|]. split; [vm_compute; lia|]. split; [reflexivity|].
  eexists. split; [vm_compute; reflexivity|].
  split; [reflexivity|]. split; [reflexivity|].
  intros H.
  apply (H (mkItem "E" (Sqrt 16)) (mkItem "E" (Sqrt 16))); [set_solver..|done].
Qed.

(** C4 (amended). For a catalog with pairwise distinct role names in which
    the two pools together are smaller than the catalog (15 + 8 < N, that is
    at least 24 roles), the close list and the oddball list of every role
    share no role name. *)
Theorem C4_close_oddball_disjoint (catalog : list Role) (R : Role) :
  NoDup (name <$> catalog) →
  (15 + 8 < length catalog)%nat →
  R ∈ catalog →
  ∃ entry, _calculate_overlaps catalog !! name R = Some entry ∧
    ∀ x y, x ∈ close entry → y ∈ oddball entry → item_name x ≠ item_name y.
Proof.
  intros Hnd Hlen HR. apply list_elem_of_lookup in HR as [i Hi].
  exists (overlaps_of_role catalog R). split.
  { by rewrite calculate_overlaps_lookup, (filter_same_name _ i). }
  intros x y Hx Hy. unfold overlaps_of_role in Hx, Hy. cbn [close oddball] in Hx, Hy.
  set (ranked := stable_sort by_distance _) in *.
  assert (Hrl : length ranked = (length catalog - 1)%nat)
    by (by apply (ranked_length _ i)).
  assert (H8 : oddball_pool = 8) by reflexivity.
  rewrite H8, slice_from_neg in Hy by lia.
  rewrite slice_to_nonneg in Hx by (unfold CLOSE_POOL_SIZE; lia).
  rewrite slice_to_nonneg in Hy by (unfold ODDBALL_POOL_SIZE; lia).
  apply list_elem_of_fmap in Hx as (dx & -> & Hdx).
  apply subseteq_take in Hy.
  apply list_elem_of_fmap in Hy as (dy & -> & Hdy).
  unfold to_item; simpl.
  eapply (take_drop_disjoint (λ d : string * distance_t, d.1) ranked);
    [by apply ranked_names_NoDup| |exact Hdx|exact Hdy].
  change (Z.to_nat CLOSE_POOL_SIZE) with 15%nat. change (Z.to_nat 8) with 8%nat. lia.
Qed.

Lemma C4_close_oddball_disjoint_witness :
  ∃ entry, _calculate_overlaps (lettered_roles 24) !! "A" = Some entry ∧
    ∀ x y, x ∈ close entry → y ∈ oddball entry → item_name x ≠ item_name y.
Proof.
  apply (C4_close_oddball_disjoint (lettered_roles 24) (mkRole "A" (Some 1) None None None)).
  - apply (bool_decide_unpack _). by vm_compute.
  - vm_compute. lia.
  - vm_compute. left.
Defined.

(** ** The state monad on a loaded database *)

Ltac unfold_M := unfold mbind, M_bind, mret, M_ret, raise, get_db, set_db, read in *.

Lemma bind_ret {A B} (c : M A) (f : A → M B) w a w' :
  c w = (Ret a, w') → (c ≫= f) w = f a w'.
Proof. intros H. unfold mbind, M_bind. by rewrite H. Qed.

Lemma bind_raise {A B} (c : M A) (f : A → M B) w e w' :
  c w = (Raise e, w') → (c ≫= f) w = (Raise e, w').
Proof. intros H. unfold mbind, M_bind. by rewrite H. Qed.

Lemma mapM_read (locs : list loc) (w : world) :
  mapM read locs w = (Ret ((λ l, heap w !!! l) <$> locs), w).
Proof.
  induction locs as [|l locs IH]; simpl; [done|].
  unfold_M. by rewrite IH.
Qed.

Lemma objects_of_catalog (h : list role_obj) (locs : list loc) (catalog : list Role) :
  (λ l, h !! l) <$> locs = (λ r, Some (mkObj r None)) <$> catalog →
  (λ l, h !!! l) <$> locs = (λ r, mkObj r None) <$> catalog.
Proof.
  revert catalog. induction locs as [|l locs IH]; intros [|r catalog] H;
    simpl in *; try done.
  injection H as Hl H. f_equal; [|by apply IH].
  by apply list_lookup_total_correct.
Qed.

Lemma objects_extend (h ext : list role_obj) (locs : list loc) (catalog : list Role) :
  (λ l, h !! l) <$> locs = (λ r, Some (mkObj r None)) <$> catalog →
  (λ l, (h ++ ext) !! l) <$> locs = (λ r, Some (mkObj r None)) <$> catalog.
Proof.
  revert catalog. induction locs as [|l locs IH]; intros [|r catalog] H;
    simpl in *; try done.
  injection H as Hl H. f_equal; [|by apply IH].
  rewrite lookup_app_l; [done|]. by eapply lookup_lt_Some.
Qed.

Lemma loaded_extended catalog w objs rs :
  loaded catalog w → loaded catalog (extended w objs rs).
Proof.
  intros (locs & Hall & Hobjs & Hidx & Hov). exists locs.
  repeat split; try done. simpl. by apply objects_extend.
Qed.

Section loaded_database.
Context (catalog : list Role) (w : world) (locs : list loc).
Hypothesis Hall : _all_roles (role_db w) = Some locs.
Hypothesis Hobjs : (λ l, heap w !! l) <$> locs = (λ r, Some (mkObj r None)) <$> catalog.
Hypothesis Hidx : _roles_normalized (role_db w) = Some (role_map_of catalog).
Hypothesis Hov : _overlaps (role_db w) = Some (_calculate_overlaps catalog).

Lemma all_roles_loaded : all_roles w = (Ret locs, w).
Proof using Hall. unfold all_roles. unfold_M. by rewrite Hall. Qed.

Lemma roles_normalized_loaded : roles_normalized w = (Ret (role_map_of catalog), w).
Proof using Hidx. unfold roles_normalized. unfold_M. by rewrite Hidx. Qed.

Lemma overlaps_loaded : overlaps w = (Ret (_calculate_overlaps catalog), w).
Proof using Hov. unfold overlaps. unfold_M. by rewrite Hov. Qed.

Lemma locs_length : length locs = length catalog.
Proof using Hobjs.
  apply (f_equal length) in Hobjs. by rewrite !length_fmap in Hobjs.
Qed.

Lemma read_catalog : mapM read locs w = (Ret ((λ r, mkObj r None) <$> catalog), w).
Proof using Hobjs. rewrite mapM_read. by rewrite (objects_of_catalog _ _ catalog). Qed.
End loaded_database.

(** ** The loop of the personalized paths *)

Lemma next_named_spec (role_name : string) (h : list role_obj) (locs : list loc)
    (catalog : list Role) (w : world) :
  heap w = h →
  (λ l, h !! l) <$> locs = (λ r, Some (mkObj r None)) <$> catalog →
  match role_named catalog role_name with
  | Some R => ∃ l, next_named role_name locs w = (Ret (Some l), w) ∧
                   h !! l = Some (mkObj R None)
  | None => next_named role_name locs w = (Ret None, w)
  end.
Proof.
  intros <-. revert catalog.
  induction locs as [|l locs IH]; intros [|r catalog] H; simpl in *; try done.
  injection H as Hl H. unfold_M.
  rewrite (list_lookup_total_correct _ _ _ Hl). simpl.
  unfold role_named in *. simpl.
  destruct (String.eqb (name r) role_name); [by eauto|].
  by apply IH.
Qed.

Lemma resolve_cons (catalog : list Role) sel rest :
  resolve catalog (sel :: rest) =
  match role_named catalog (item_name sel) with
  | Some R => mkObj R (Some (item_distance sel)) :: resolve catalog rest
  | None => resolve catalog rest
  end.
Proof. unfold resolve. simpl. by destruct (role_named _ _). Qed.

Lemma with_distances_loaded (catalog : list Role) (selected : list match_item) (w : world) :
  loaded catalog w →
  with_distances selected w =
  (Ret (seq (length (heap w)) (length (resolve catalog selected))),
   extended w (resolve catalog selected) (rng w)).
Proof.
  revert w. induction selected as [|sel rest IH]; intros w Hl.
  - simpl. unfold extended. rewrite app_nil_r. by destruct w.
  - pose proof Hl as (locs & Hall & Hobjs & Hidx & Hov).
    cbn [with_distances].
    rewrite (bind_ret _ _ _ _ _ (all_roles_loaded _ _ Hall)).
    pose proof (next_named_spec (item_name sel) _ _ _ w eq_refl Hobjs) as Hnext.
    rewrite resolve_cons.
    destruct (role_named catalog (item_name sel)) as [R|] eqn:Hfind.
    + destruct Hnext as (l & Hnext & Hlook).
      rewrite (bind_ret _ _ _ _ _ Hnext). simpl.
      unfold_M. unfold alloc, set_distance. simpl.
      rewrite (list_lookup_total_correct _ _ _ Hlook).
      set (h1 := <[_ := _]> _).
      assert (Hh1 : h1 = heap w ++ [mkObj R (Some (item_distance sel))]).
      { unfold h1. rewrite list_lookup_total_middle by done.
        rewrite insert_app_r_alt by done. by rewrite Nat.sub_diag. }
      rewrite Hh1.
      specialize (IH (extended w [mkObj R (Some (item_distance sel))] (rng w))
                     (loaded_extended _ _ _ _ Hl)).
      unfold extended in IH. cbn [heap role_db stdout rng] in IH. rewrite IH.
      unfold extended. rewrite length_app, <- app_assoc. cbn [length app seq].
      by rewrite Nat.add_1_r.
    + rewrite (bind_ret _ _ _ _ _ Hnext). simpl. by apply IH.
Qed.

(** ** Sampling *)

Lemma draw_spec {A} (k : nat) (pool : list A) (rs : list nat) :
  (k ≤ length pool)%nat →
  (draw k pool rs).1 ⊆+ pool ∧ length (draw k pool rs).1 = k.
Proof.
  revert pool rs. induction k as [|k IH]; intros pool rs Hk; simpl.
  - split; [apply submseteq_nil_l | done].
  - assert (Hj : (hd 0 rs `mod` length pool < length pool)%nat)
      by (apply Nat.mod_upper_bound; lia).
    destruct (lookup_lt_is_Some_2 _ _ Hj) as [x Hx]. rewrite Hx.
    specialize (IH (delete (hd 0%nat rs `mod` length pool)%nat pool) (tl rs)).
    destruct (draw k _ (tl rs)) as [picked rs'] eqn:Hd. simpl in *.
    destruct IH as [Hsub Hlen].
    { rewrite length_delete by eauto. lia. }
    split; [|by rewrite Hlen].
    rewrite (delete_Permutation pool _ x Hx). by apply submseteq_skip.
Qed.

Lemma draw_all {A} (pool : list A) (rs : list nat) :
  (draw (length pool) pool rs).1 ≡ₚ pool.
Proof.
  destruct (draw_spec (length pool) pool rs) as [Hsub Hlen]; [done|].
  apply submseteq_length_Permutation; [done | lia].
Qed.

(** Every arrangement of elements of the pool is drawn by some generator. *)
Lemma draw_reaches {A} (picked pool : list A) :
  picked ⊆+ pool → ∃ rs, (draw (length picked) pool rs).1 = picked.
Proof.
  revert pool. induction picked as [|x picked IH]; intros pool Hsub.
  - by exists [].
  - apply submseteq_cons_l in Hsub as (pool' & Hperm & Hsub).
    assert (Hx : x ∈ pool) by (rewrite Hperm; left).
    apply list_elem_of_lookup in Hx as [j Hj].
    assert (Hdel : delete j pool ≡ₚ pool').
    { apply (Permutation_cons_inv (a := x)).
      by rewrite <- (delete_Permutation pool j x Hj). }
    destruct (IH (delete j pool)) as [rs Hrs]; [by rewrite Hdel|].
    exists (j :: rs). simpl.
    rewrite Nat.mod_small by (by eapply lookup_lt_Some). rewrite Hj.
    destruct (draw _ _ rs) as [picked' rs'] eqn:Hd. simpl in *. by rewrite Hrs.
Qed.

Lemma random_sample_spec {A} (population : list A) (k : Z) (w : world) :
  0 ≤ k ≤ Z.of_nat (length population) →
  ∃ picked rs, random_sample population k w = (Ret picked, redrawn w rs) ∧
    picked ⊆+ population ∧ length picked = Z.to_nat k.
Proof.
  intros Hk. unfold random_sample.
  destruct (Z.ltb_spec k 0); [lia|].
  destruct (Z.ltb_spec (Z.of_nat (length population)) k); [lia|]. simpl.
  pose proof (draw_spec (Z.to_nat k) population (rng w)) as Hd.
  destruct (draw _ _ _) as [picked rs]. simpl in Hd.
  exists picked, rs. split; [done|]. apply Hd. lia.
Qed.

Lemma random_sample_raises {A} (population : list A) (k : Z) (w : world) :
  k < 0 ∨ Z.of_nat (length population) < k →
  random_sample population k w = (Raise ValueError, w).
Proof.
  intros Hk. unfold random_sample.
  destruct (Z.ltb_spec k 0); [done|].
  destruct (Z.ltb_spec (Z.of_nat (length population)) k); [done|]. lia.
Qed.

Lemma random_shuffle_spec {A} (x : list A) (w : world) :
  ∃ shuffled rs, random_shuffle x w = (Ret shuffled, redrawn w rs) ∧ shuffled ≡ₚ x.
Proof.
  unfold random_shuffle. pose proof (draw_all x (rng w)) as Hd.
  destruct (draw _ _ _) as [picked rs]. by exists picked, rs.
Qed.

(** The selection of the personalized paths never raises: it returns a
    sub-multiset of the two pools, truncated to [count]. *)
Lemma select_roles_spec (entry : overlap_entry) (count : Z) (w : world) :
  ∃ selected rs, select_roles entry count w = (Ret selected, redrawn w rs) ∧
    selected ⊆+ close entry ++ oddball entry ∧
    (0 ≤ count → (length selected ≤ Z.to_nat count)%nat).
Proof.
  unfold select_roles.
  destruct (random_sample_spec (close entry)
              (Z.min CLOSE_MATCHES_COUNT (Z.of_nat (length (close entry)))) w)
    as (sc & rs1 & Hsc & Hsub1 & _); [unfold CLOSE_MATCHES_COUNT; lia|].
  rewrite (bind_ret _ _ _ _ _ Hsc).
  destruct (random_sample_spec (oddball entry)
              (Z.min ODDBALL_COUNT (Z.of_nat (length (oddball entry)))) (redrawn w rs1))
    as (so & rs2 & Hso & Hsub2 & _); [unfold ODDBALL_COUNT; lia|].
  rewrite (bind_ret _ _ _ _ _ Hso).
  destruct (random_shuffle_spec (sc ++ so) (redrawn (redrawn w rs1) rs2))
    as (sh & rs3 & Hsh & Hperm).
  rewrite (bind_ret _ _ _ _ _ Hsh).
  exists (slice_to count sh), rs3. split; [done|]. split.
  - transitivity sh; [apply sublist_submseteq, slice_to_sublist|].
    rewrite Hperm. by apply submseteq_app.
  - intros Hc. by apply slice_to_length_le.
Qed.

(** ** The three decision paths on a loaded database *)

Lemma loaded_redrawn catalog w rs : loaded catalog w → loaded catalog (redrawn w rs).
Proof. intros (locs & ? & ? & ? & ?). by exists locs. Qed.

Lemma catalog_object (catalog : list Role) (h : list role_obj) (locs : list loc) l :
  (λ l, h !! l) <$> locs = (λ r, Some (mkObj r None)) <$> catalog →
  l ∈ locs → ∃ R, R ∈ catalog ∧ h !! l = Some (mkObj R None).
Proof.
  intros Hobjs Hin. apply list_elem_of_lookup in Hin as [i Hi].
  apply (f_equal (λ x, x !! i)) in Hobjs. rewrite !list_lookup_fmap, Hi in Hobjs.
  simpl in Hobjs. destruct (catalog !! i) as [R|] eqn:HR; [|done].
  injection Hobjs as Hl. exists R. split; [|done]. by eapply list_elem_of_lookup_2.
Qed.

Lemma random_roles_spec (catalog : list Role) (w : world) (count : Z) :
  loaded catalog w → 0 ≤ count →
  ∃ picked rs,
    random_roles count w = (Ret (mkResponse picked false None None), redrawn w rs) ∧
    (λ l, heap w !!! l) <$> picked ⊆+ (λ r, mkObj r None) <$> catalog ∧
    length picked = Z.to_nat (Z.min count (Z.of_nat (length catalog))) ∧
    Forall (λ l, ∃ R, R ∈ catalog ∧ heap w !! l = Some (mkObj R None)) picked.
Proof.
  intros (locs & Hall & Hobjs & Hidx & Hov) Hc. unfold random_roles.
  rewrite (bind_ret _ _ _ _ _ (all_roles_loaded _ _ Hall)).
  rewrite (bind_ret _ _ _ _ _ (all_roles_loaded _ _ Hall)).
  destruct (random_sample_spec locs (Z.min count (Z.of_nat (length locs))) w)
    as (picked & rs & Hs & Hsub & Hlen); [lia|].
  rewrite (bind_ret _ _ _ _ _ Hs). exists picked, rs.
  split; [done|]. split; [|split].
  - rewrite <- (objects_of_catalog (heap w) locs catalog) by done.
    by apply fmap_submseteq.
  - by rewrite Hlen, (locs_length catalog w).
  - apply Forall_forall. intros l Hin.
    apply (catalog_object catalog _ locs); [done|]. by eapply elem_of_submseteq.
Qed.

Lemma random_roles_negative (catalog : list Role) (w : world) (count : Z) :
  loaded catalog w → count < 0 →
  random_roles count w = (Raise ValueError, w).
Proof.
  intros (locs & Hall & Hobjs & Hidx & Hov) Hc. unfold random_roles.
  rewrite (bind_ret _ _ _ _ _ (all_roles_loaded _ _ Hall)).
  rewrite (bind_ret _ _ _ _ _ (all_roles_loaded _ _ Hall)).
  rewrite (bind_raise _ _ w ValueError w); [done|].
  apply random_sample_raises. lia.
Qed.

Lemma get_roles_from_database_spec (catalog : list Role) (w : world)
    (normalized canonical : string) (count : Z) :
  loaded catalog w →
  role_map_of catalog !! normalized = Some canonical →
  ∃ R entry selected rs,
    R ∈ catalog ∧ name R = canonical ∧
    _calculate_overlaps catalog !! canonical = Some entry ∧
    entry = overlaps_of_role catalog R ∧
    _get_roles_from_database normalized count w =
      (Ret (mkResponse (seq (length (heap w)) (length (resolve catalog selected)))
                       true (Some canonical) None),
       extended w (resolve catalog selected) rs) ∧
    selected ⊆+ close entry ++ oddball entry ∧
    (0 ≤ count → (length selected ≤ Z.to_nat count)%nat).
Proof.
  intros Hl Hcan. pose proof Hl as (locs & Hall & Hobjs & Hidx & Hov).
  destruct (role_map_canonical _ _ _ Hcan) as (R0 & HR0 & Hname0 & _).
  destruct (overlaps_of_name _ _ HR0) as (R & HR & Hname & Hentry).
  rewrite Hname0 in Hname, Hentry.
  destruct (select_roles_spec (overlaps_of_role catalog R) count w)
    as (selected & rs & Hsel & Hsub & Hlen).
  exists R, (overlaps_of_role catalog R), selected, rs.
  repeat (split; [done|]). split; [|done].
  unfold _get_roles_from_database.
  rewrite (bind_ret _ _ _ _ _ (roles_normalized_loaded _ _ Hidx)), Hcan.
  rewrite (bind_ret _ _ _ _ _ (overlaps_loaded _ _ Hov)), Hentry.
  rewrite (bind_ret _ _ _ _ _ Hsel).
  rewrite (bind_ret _ _ _ _ _
             (with_distances_loaded catalog selected _ (loaded_redrawn _ _ rs Hl))).
  done.
Qed.

Lemma calculate_overlaps_on_fly_spec (catalog : list Role) (w : world)
    (m : metrics_tuple) :
  loaded catalog w →
  calculate_overlaps_on_fly m None None w = (Ret (spec_on_fly_entry catalog m), w).
Proof.
  intros (locs & Hall & Hobjs & Hidx & Hov). unfold calculate_overlaps_on_fly.
  rewrite (bind_ret _ _ _ _ _ (all_roles_loaded _ _ Hall)).
  rewrite (bind_ret _ _ _ _ _ (read_catalog _ _ _ Hobjs)).
  unfold mret, M_ret. do 2 f_equal. simpl.
  rewrite <- list_fmap_compose.
  change (stable_sort by_distance _) with (ranked_all catalog m).
  unfold spec_on_fly_entry.
  rewrite (slice_from_neg 10) by lia.
  rewrite !slice_to_nonneg by (unfold CLOSE_MATCHES_COUNT, ODDBALL_COUNT; lia).
  by rewrite <- fmap_take.
Qed.

Lemma get_roles_from_metrics_spec (catalog : list Role) (w : world)
    (metrics : gmap string Z) (current : string) (count : Z) :
  loaded catalog w →
  ∃ selected rs,
    _get_roles_from_metrics metrics current count w =
      (Ret (mkResponse (seq (length (heap w)) (length (resolve catalog selected)))
                       true (Some current) (Some true)),
       extended w (resolve catalog selected) rs) ∧
    selected ⊆+ close (spec_on_fly_entry catalog (metrics_tuple_of metrics))
                 ++ oddball (spec_on_fly_entry catalog (metrics_tuple_of metrics)) ∧
    (0 ≤ count → (length selected ≤ Z.to_nat count)%nat).
Proof.
  intros Hl.
  destruct (select_roles_spec (spec_on_fly_entry catalog (metrics_tuple_of metrics))
              count w) as (selected & rs & Hsel & Hsub & Hlen).
  exists selected, rs. split; [|done].
  unfold _get_roles_from_metrics.
  rewrite (bind_ret _ _ _ _ _ (calculate_overlaps_on_fly_spec catalog w _ Hl)).
  rewrite (bind_ret _ _ _ _ _ Hsel).
  rewrite (bind_ret _ _ _ _ _
             (with_distances_loaded catalog selected _ (loaded_redrawn _ _ rs Hl))).
  done.
Qed.

(** ** Which path a call takes *)

Lemma get_personalized_roles_falsy (current : option string)
    (metrics : option (gmap string Z)) (count : Z) (w : world) :
  truthy_str current = false →
  get_personalized_roles current metrics count w = random_roles count w.
Proof. intros H. unfold get_personalized_roles. by rewrite H. Qed.

Lemma get_personalized_roles_exact (catalog : list Role) (current canonical : string)
    (metrics : option (gmap string Z)) (count : Z) (w : world) :
  loaded catalog w → current ≠ "" →
  role_map_of catalog !! normalize current = Some canonical →
  get_personalized_roles (Some current) metrics count w =
  _get_roles_from_database (normalize current) count w.
Proof.
  intros (locs & Hall & Hobjs & Hidx & Hov) Hne Hcan.
  unfold get_personalized_roles, truthy_str.
  destruct (String.eqb_spec current "") as [?|_]; [done|]. simpl.
  rewrite (bind_ret _ _ _ _ _ (roles_normalized_loaded _ _ Hidx)).
  rewrite bool_decide_true; [done|]. by rewrite Hcan.
Qed.

Lemma get_personalized_roles_unknown (catalog : list Role) (current : string)
    (metrics : option (gmap string Z)) (count : Z) (w : world) :
  loaded catalog w → current ≠ "" →
  role_map_of catalog !! normalize current = None →
  get_personalized_roles (Some current) metrics count w =
  if truthy_dict metrics
  then _get_roles_from_metrics (default ∅ metrics) current count w
  else random_roles count w.
Proof.
  intros (locs & Hall & Hobjs & Hidx & Hov) Hne Hcan.
  unfold get_personalized_roles, truthy_str.
  destruct (String.eqb_spec current "") as [?|_]; [done|]. simpl.
  rewrite (bind_ret _ _ _ _ _ (roles_normalized_loaded _ _ Hidx)).
  rewrite bool_decide_false; [by destruct (truthy_dict metrics)|].
  rewrite Hcan. by intros [? ?].
Qed.

(** ** The objects of a personalized response *)

Lemma resolve_elem (catalog : list Role) (selected : list match_item) (o : role_obj) :
  o ∈ resolve catalog selected →
  ∃ sel R, sel ∈ selected ∧ R ∈ catalog ∧ name R = item_name sel ∧
           role_named catalog (item_name sel) = Some R ∧
           o = mkObj R (Some (item_distance sel)).
Proof.
  unfold resolve. intros Ho. apply list_elem_of_omap in Ho as (sel & Hsel & Hres).
  destruct (role_named catalog (item_name sel)) as [R|] eqn:Hfind; [|done].
  injection Hres as <-. exists sel, R.
  unfold role_named in Hfind. pose proof Hfind as Hfind'.
  apply find_some in Hfind as [Hin Heq].
  apply String.eqb_eq in Heq. apply list_elem_of_In in Hin. done.
Qed.


Lemma shown_extended (w : world) (objs : list role_obj) (rs : list nat) p c e :
  shown (extended w objs rs)
        (mkResponse (seq (length (heap w)) (length objs)) p c e) = objs.
Proof.
  unfold shown, extended. simpl.
  apply list_eq. intros i. rewrite list_lookup_fmap.
  destruct (decide (i < length objs)%nat) as [Hlt|Hge].
  - rewrite lookup_seq_lt by done. simpl.
    destruct (lookup_lt_is_Some_2 objs i Hlt) as [o Ho]. rewrite Ho. f_equal.
    apply list_lookup_total_correct.
    rewrite lookup_app_r by lia. by replace (length (heap w) + i - length (heap w))%nat with i by lia.
  - rewrite lookup_seq_ge by lia. simpl. symmetry. apply lookup_ge_None. lia.
Qed.

(** The items of both pools of the entry of [R] bear another name than [R]. *)
Lemma overlaps_of_role_names (catalog : list Role) (R : Role) (x : match_item) :
  x ∈ close (overlaps_of_role catalog R) ++ oddball (overlaps_of_role catalog R) →
  item_name x ≠ name R.
Proof.
  pose proof (distances_from_names (name R) (metrics_of R) catalog) as Hnames.
  rewrite <- (stable_sort_perm distance_key) in Hnames.
  rewrite Forall_forall in Hnames.
  unfold overlaps_of_role. cbn [close oddball].
  set (ranked := stable_sort by_distance _) in *.
  intros Hx. apply elem_of_app in Hx as [Hx|Hx].
  - apply list_elem_of_fmap in Hx as (d & -> & Hd).
    apply Hnames. eapply sublist_subseteq; [apply slice_to_sublist | exact Hd].
  - eapply sublist_subseteq in Hx; [|apply slice_to_sublist].
    apply list_elem_of_fmap in Hx as (d & -> & Hd).
    apply Hnames. eapply sublist_subseteq; [apply slice_from_sublist | exact Hd].
Qed.

(** ** Startup establishes the loaded state *)

Lemma mapM_alloc (rs : list Role) (w : world) :
  mapM (λ r, alloc (mkObj r None)) rs w =
  (Ret (seq (length (heap w)) (length rs)),
   extended w ((λ r, mkObj r None) <$> rs) (rng w)).
Proof.
  revert w. induction rs as [|r rs IH]; intros w; simpl.
  - unfold extended. rewrite app_nil_r. by destruct w.
  - unfold_M. unfold alloc at 1. rewrite IH. unfold extended. simpl.
    rewrite length_app, <- app_assoc. simpl. by rewrite Nat.add_1_r.
Qed.

Lemma lookup_fresh_objects (h objs : list role_obj) :
  (λ l, (h ++ objs) !! l) <$> seq (length h) (length objs) = Some <$> objs.
Proof.
  apply list_eq. intros i. rewrite !list_lookup_fmap.
  destruct (decide (i < length objs)%nat) as [Hlt|Hge].
  - rewrite lookup_seq_lt by done. simpl.
    rewrite lookup_app_r by lia.
    replace (length h + i - length h)%nat with i by lia.
    destruct (lookup_lt_is_Some_2 objs i Hlt) as [o Ho]. by rewrite Ho.
  - rewrite lookup_seq_ge by lia. simpl.
    by rewrite (proj2 (lookup_ge_None objs i)) by lia.
Qed.

Lemma init_role_database_document (catalog : list Role) (rs : list nat) :
  ∃ w, init_role_database (fresh_world (Document (Some catalog)) rs) = (Ret (), w) ∧
       loaded catalog w ∧ rng w = rs.
Proof.
  unfold init_role_database, roles_normalized, overlaps, calculate_overlaps_M,
    all_roles, _load_normalized, _load_all_roles, fresh_world.
  unfold_M. unfold print. simpl. unfold_M.
  rewrite mapM_alloc. simpl. rewrite mapM_read. simpl.
  eexists. split; [reflexivity|]. split; [|done].
  exists (seq 0 (length catalog)). simpl. split; [done|].
  pose proof (lookup_fresh_objects [] ((λ r, mkObj r None) <$> catalog)) as Hlook.
  simpl in Hlook. rewrite length_fmap, <- list_fmap_compose in Hlook.
  split; [exact Hlook|]. split; [done|]. do 2 f_equal.
  apply objects_of_catalog in Hlook. rewrite Hlook, <- list_fmap_compose.
  apply list_fmap_id.
Qed.


Lemma startup_loaded (catalog : list Role) (rs : list nat) :
  loaded catalog (startup catalog rs).
Proof.
  unfold startup.
  destruct (init_role_database_document catalog rs) as (w & -> & Hl & _). done.
Qed.

Lemma truthy_str_Some (current : option string) :
  truthy_str current = true → ∃ s, current = Some s ∧ s ≠ "".
Proof.
  destruct current as [s|]; [|done]. simpl.
  destruct (String.eqb_spec s ""); [done|]. eauto.
Qed.

Lemma truthy_dict_Some (metrics : option (gmap string Z)) :
  truthy_dict metrics = true → ∃ m, metrics = Some m ∧ m ≠ ∅.
Proof.
  destruct metrics as [m|]; [|done]. simpl.
  destruct (decide (m = ∅)) as [->|Hne].
  - by rewrite bool_decide_true.
  - eauto.
Qed.

Lemma get_personalized_roles_path (catalog : list Role) (w : world)
    (current : option string) (metrics : option (gmap string Z)) (count : Z) :
  loaded catalog w →
  decision_path catalog w current metrics count
    (get_personalized_roles current metrics count w).
Proof.
  intros Hl. destruct (truthy_str current) eqn:Hcur.
  2: { rewrite get_personalized_roles_falsy by done. constructor. by left. }
  destruct (truthy_str_Some _ Hcur) as (s & -> & Hne).
  destruct (role_map_of catalog !! normalize s) as [canonical|] eqn:Hcan.
  - rewrite (get_personalized_roles_exact catalog _ canonical) by done.
    destruct (get_roles_from_database_spec catalog w _ canonical count Hl Hcan)
      as (R & entry & selected & rs & HR & Hname & Hentry & -> & -> & Hsub & Hlen).
    by eapply precomputed_path.
  - rewrite (get_personalized_roles_unknown catalog) by done.
    destruct (truthy_dict metrics) eqn:Hm.
    + destruct (truthy_dict_Some _ Hm) as (m & -> & Hm0). simpl.
      destruct (get_roles_from_metrics_spec catalog w m s count Hl)
        as (selected & rs & -> & Hsub & Hlen).
      by eapply on_the_fly_path.
    + constructor. by right.
Qed.

Ltac loaded_by_computation locs :=
  exists locs; repeat split; vm_compute; reflexivity.

(** ** The pre-computed path *)

(** C1. On a loaded catalog, with [count >= 1] and a non-empty [current_role]
    whose lower-cased, trimmed form is a key of the normalized-name index,
    the call returns; the response has [personalized = true] and
    [current_role] equal to the canonical name the index gives, which is the
    name of a catalog role; every returned role object carries a distance,
    and none bears the canonical name. *)
Theorem C1_catalog_role_is_personalized (catalog : list Role) (w : world)
    (current : string) (metrics : option (gmap string Z)) (count : Z) :
  loaded catalog w →
  1 ≤ count →
  current ≠ "" →
  is_Some (role_map_of catalog !! normalize current) →
  ∃ r w' canonical,
    get_personalized_roles (Some current) metrics count w = (Ret r, w') ∧
    role_map_of catalog !! normalize current = Some canonical ∧
    (∃ R, R ∈ catalog ∧ name R = canonical) ∧
    personalized r = true ∧
    current_role r = Some canonical ∧
    Forall (λ l, is_Some (heap w' !! l)) (roles r) ∧
    Forall (λ o : role_obj, is_Some (distance o) ∧ name o ≠ canonical) (shown w' r).
Proof.
  intros Hl Hcount Hne [canonical Hcan].
  destruct (get_roles_from_database_spec catalog w _ canonical count Hl Hcan)
    as (R & entry & selected & rs & HR & Hname & Hentry & -> & Hrun & Hsub & _).
  eexists _, _, canonical. split.
  { rewrite (get_personalized_roles_exact catalog _ canonical) by done. exact Hrun. }
  split; [done|]. split; [by eauto|]. split; [done|]. split; [done|]. split.
  - apply Forall_forall. intros l Hin. simpl in *.
    apply elem_of_seq in Hin. apply lookup_lt_is_Some_2.
    rewrite length_app. lia.
  - rewrite shown_extended. apply Forall_forall. intros o Ho.
    apply resolve_elem in Ho as (sel & R' & Hsel & HR' & Hname' & _ & ->). simpl.
    split; [by eauto|]. rewrite Hname', <- Hname.
    apply (overlaps_of_role_names catalog). by eapply elem_of_submseteq.
Qed.

Lemma C1_catalog_role_is_personalized_witness :
  ∃ r w' canonical,
    get_personalized_roles (Some "  Designer ") None 27 (startup three_roles [2; 7]%nat)
      = (Ret r, w') ∧
    role_map_of three_roles !! normalize "  Designer " = Some canonical ∧
    (∃ R, R ∈ three_roles ∧ name R = canonical) ∧
    personalized r = true ∧
    current_role r = Some canonical ∧
    Forall (λ l, is_Some (heap w' !! l)) (roles r) ∧
    Forall (λ o : role_obj, is_Some (distance o) ∧ name o ≠ canonical) (shown w' r).
Proof.
  apply (C1_catalog_role_is_personalized three_roles).
  - loaded_by_computation [0; 1; 2]%nat.
  - lia.
  - done.
  - vm_compute. by eexists.
Defined.

(** ** Sizes of the pools *)




(** ** A count larger than the catalog *)




(** ** The on-the-fly path *)




(** ** The unpersonalized path *)

Lemma submseteq_NoDup {A} (l k : list A) : l ⊆+ k → NoDup k → NoDup l.
Proof.
  intros Hsub Hnd. apply submseteq_sublist_l in Hsub as (l' & Hsl & Hperm).
  rewrite <- Hperm in Hnd. by eapply sublist_NoDup.
Qed.

Lemma shown_redrawn (w : world) (rs : list nat) (r : response) :
  shown (redrawn w rs) r = (λ l, heap w !!! l) <$> roles r.
Proof. done. Qed.

(** C7. On a loaded catalog with pairwise distinct role names and for every
    [count >= 0], the call with no [current_role] and no metrics returns;
    the response has [personalized = false], holds [min(count, N)] roles,
    hence at most [count] and all of them when the catalog is not larger than
    [count]; they are catalog roles taken at distinct positions, and no two of
    them bear the same name. *)
Theorem C7_unpersonalized_sample (catalog : list Role) (w : world) (count : Z) :
  loaded catalog w →
  NoDup (name <$> catalog) →
  0 ≤ count →
  ∃ r w',
    get_personalized_roles None None count w = (Ret r, w') ∧
    personalized r = false ∧
    (length (roles r) ≤ Z.to_nat count)%nat ∧
    length (roles r) = (Z.to_nat count `min` length catalog)%nat ∧
    fields <$> shown w' r ⊆+ catalog ∧
    (Z.of_nat (length catalog) ≤ count → fields <$> shown w' r ≡ₚ catalog) ∧
    NoDup ((λ o : role_obj, name o) <$> shown w' r).
Proof.
  intros Hl Hnd Hcount.
  destruct (random_roles_spec catalog w count Hl Hcount)
    as (picked & rs & Hrun & Hsub & Hlen & _).
  eexists _, _. split.
  { rewrite get_personalized_roles_falsy by done. exact Hrun. }
  rewrite shown_redrawn. cbn [roles personalized].
  assert (Hsub' : fields <$> ((λ l, heap w !!! l) <$> picked) ⊆+ catalog).
  { apply (fmap_submseteq fields) in Hsub.
    rewrite <- (list_fmap_compose _ fields catalog) in Hsub.
    by rewrite list_fmap_id in Hsub. }
  split; [done|]. split; [lia|]. split; [lia|]. split; [done|]. split.
  - intros Hall. apply submseteq_length_Permutation; [done|].
    rewrite !length_fmap. lia.
  - rewrite (list_fmap_compose fields name).
    eapply submseteq_NoDup; [|exact Hnd]. by apply fmap_submseteq.
Qed.

Lemma C7_unpersonalized_sample_witness :
  ∃ r w',
    get_personalized_roles None None 27 (startup three_roles [4; 1]%nat) = (Ret r, w') ∧
    personalized r = false ∧
    (length (roles r) ≤ Z.to_nat 27)%nat ∧
    NoDup ((λ o : role_obj, name o) <$> shown w' r).
Proof.
  destruct (C7_unpersonalized_sample three_roles (startup three_roles [4; 1]%nat) 27)
    as (r & w' & Hrun & Hp & Hle & _ & _ & _ & Hnd).
  - loaded_by_computation [0; 1; 2]%nat.
  - apply (bool_decide_unpack _). by vm_compute.
  - lia.
  - exact (ex_intro _ r (ex_intro _ w' (conj Hrun (conj Hp (conj Hle Hnd))))).
Defined.

(** C10. On a loaded catalog, a call whose [current_role] is the empty string
    (or [None]) is the unpersonalized random sample, whatever metrics are
    supplied: same outcome as with no metrics; when it returns, the response
    has [personalized = false], neither [current_role] nor [edge_case], and
    its roles carry no distance; it returns for every [count >= 0]. *)
Theorem C10_empty_current_role (catalog : list Role) (w : world)
    (metrics : option (gmap string Z)) (count : Z) :
  loaded catalog w →
  get_personalized_roles (Some "") metrics count w = random_roles count w ∧
  get_personalized_roles None metrics count w = random_roles count w ∧
  get_personalized_roles None None count w = random_roles count w ∧
  (∀ r w', get_personalized_roles (Some "") metrics count w = (Ret r, w') →
     personalized r = false ∧ current_role r = None ∧ edge_case r = None ∧
     Forall (λ o : role_obj, distance o = None ∧ fields o ∈ catalog) (shown w' r)) ∧
  (0 ≤ count → ∃ r w', get_personalized_roles (Some "") metrics count w = (Ret r, w')).
Proof.
  intros Hl. rewrite !get_personalized_roles_falsy by done.
  do 3 (split; [done|]). split.
  - intros r w' Hrun.
    destruct (Z.lt_ge_cases count 0) as [Hneg|Hpos].
    { by rewrite (random_roles_negative catalog) in Hrun. }
    destruct (random_roles_spec catalog w count Hl Hpos)
      as (picked & rs & Hrun' & _ & _ & Hobjs).
    rewrite Hrun' in Hrun. injection Hrun as <- <-.
    do 3 (split; [done|]). rewrite shown_redrawn. cbn [roles].
    apply Forall_fmap. eapply Forall_impl; [exact Hobjs|].
    intros l (R & HR & Hlook). simpl.
    by rewrite (list_lookup_total_correct _ _ _ Hlook).
  - intros Hpos.
    destruct (random_roles_spec catalog w count Hl Hpos) as (picked & rs & Hrun' & _).
    eauto.
Qed.

Lemma C10_empty_current_role_witness :
  get_personalized_roles (Some "")
    (Some {[ "technical" := 9 ]}) 27 (startup three_roles [1]%nat)
  = random_roles 27 (startup three_roles [1]%nat).
Proof.
  refine (proj1 (C10_empty_current_role three_roles _ _ _ _)).
  loaded_by_computation [0; 1; 2]%nat.
Defined.

(** ** The catalog is not mutated *)

Lemma extended_lookup (h objs : list role_obj) (l : loc) :
  l ∈ seq (length h) (length objs) →
  (length h ≤ l)%nat ∧ ∃ o, o ∈ objs ∧ (h ++ objs) !! l = Some o.
Proof.
  intros Hin. apply elem_of_seq in Hin. split; [lia|].
  destruct (lookup_lt_is_Some_2 objs (l - length h)) as [o Ho]; [lia|].
  exists o. split; [by eapply list_elem_of_lookup_2|].
  by rewrite lookup_app_r by lia.
Qed.

Lemma personalized_objects (catalog : list Role) (h : list role_obj)
    (selected : list match_item) :
  Forall (λ l, (length h ≤ l)%nat ∧
               ∃ R d, R ∈ catalog ∧
                      (h ++ resolve catalog selected) !! l = Some (mkObj R (Some d)))
         (seq (length h) (length (resolve catalog selected))).
Proof.
  apply Forall_forall. intros l Hin.
  apply extended_lookup in Hin as (Hfresh & o & Ho & Hlook). split; [done|].
  apply resolve_elem in Ho as (sel & R & _ & HR & _ & _ & ->). eauto.
Qed.

(** C8. On a loaded catalog, whatever the arguments and whether the call
    returns or raises, the database fields (the list of role objects, the
    index and the overlaps) are unchanged and every object that was in the
    heap, hence every catalog record, is unchanged; the database is still
    loaded from the same catalog.  On the personalized paths every returned
    object is newly allocated and is a catalog record with a distance added;
    on the unpersonalized path the returned objects are the catalog records,
    without distance. *)
Theorem C8_catalog_not_mutated (catalog : list Role) (w w' : world)
    (current : option string) (metrics : option (gmap string Z)) (count : Z)
    (out : result response) :
  loaded catalog w →
  get_personalized_roles current metrics count w = (out, w') →
  role_db w' = role_db w ∧
  (∃ created, heap w' = heap w ++ created) ∧
  (∀ l o, heap w !! l = Some o → heap w' !! l = Some o) ∧
  loaded catalog w' ∧
  ∀ r, out = Ret r →
    (personalized r = true →
       Forall (λ l, (length (heap w) ≤ l)%nat ∧
                    ∃ R d, R ∈ catalog ∧ heap w' !! l = Some (mkObj R (Some d)))
              (roles r)) ∧
    (personalized r = false →
       Forall (λ l, ∃ R, R ∈ catalog ∧ heap w' !! l = Some (mkObj R None)) (roles r)).
Proof.
  intros Hl Hrun.
  pose proof (get_personalized_roles_path catalog w current metrics count Hl) as Hp.
  rewrite Hrun in Hp. clear Hrun.
  inversion Hp as [Hcase Hrun
                  |s canonical R selected rs -> Hne Hcan HR Hname Hsub Hlen
                  |s m selected rs -> Hne Hcan -> Hm Hsub Hlen]; subst.
  - destruct (Z.lt_ge_cases count 0) as [Hneg|Hpos].
    + rewrite (random_roles_negative catalog) in Hrun by done.
      injection Hrun as <- <-.
      split; [done|]. split; [exists []; by rewrite app_nil_r|].
      split; [done|]. split; [done|]. intros r Hr. discriminate Hr.
    + destruct (random_roles_spec catalog w count Hl Hpos)
        as (picked & rs & Hrun' & _ & _ & Hobjs).
      rewrite Hrun' in Hrun. injection Hrun as <- <-.
      split; [done|]. split; [exists []; by rewrite app_nil_r|].
      split; [done|]. split; [by apply loaded_redrawn|].
      intros r Hr. injection Hr as <-. split; [done|]. by intros _.
  - split; [done|]. split; [by eexists|].
    split; [intros l o Hlook; by apply lookup_app_l_Some|].
    split; [by apply loaded_extended|].
    intros r Hr. injection Hr as <-. split; [|done].
    intros _. apply personalized_objects.
  - split; [done|]. split; [by eexists|].
    split; [intros l o Hlook; by apply lookup_app_l_Some|].
    split; [by apply loaded_extended|].
    intros r Hr. injection Hr as <-. split; [|done].
    intros _. apply personalized_objects.
Qed.

Lemma C8_catalog_not_mutated_witness :
  let w := startup three_roles [2; 7]%nat in
  let run := get_personalized_roles (Some "Tester") None 27 w in
  role_db run.2 = role_db w ∧ ∃ created, heap run.2 = heap w ++ created.
Proof.
  intros w run.
  destruct (C8_catalog_not_mutated three_roles w run.2 (Some "Tester") None 27 run.1)
    as (Hdb & Hheap & _).
  - loaded_by_computation [0; 1; 2]%nat.
  - apply surjective_pairing.
  - exact (conj Hdb Hheap).
Defined.

(** ** Loading from a missing or malformed source *)

(** C5, as stated, at a source that is not JSON: both loaders, and startup
    with them, raise the decoding error instead of yielding an empty
    catalog. *)
Lemma C5_counterexample_unparsable_source :
  _load_normalized (fresh_world Unparsable [])
    = (Raise JSONDecodeError, fresh_world Unparsable []) ∧
  _load_all_roles (fresh_world Unparsable [])
    = (Raise JSONDecodeError, fresh_world Unparsable []) ∧
  init_role_database (fresh_world Unparsable [])
    = (Raise JSONDecodeError, fresh_world Unparsable []).
Proof. by repeat split. Qed.

(** C5 (amended). What loading does for each kind of source.  Missing file:
    the index is empty, after a warning is printed, and the role list is
    empty, no exception.  Source that is not JSON, or JSON that is not an
    object: both loaders raise.  JSON object: the index and the role objects
    of its ['roles'] (none when the key is absent). *)
Theorem C5_loading_by_source (w : world) :
  match roles_file (role_db w) with
  | Missing =>
      _load_normalized w
        = (Ret ∅, mkWorld (role_db w) (heap w) (stdout w ++ [warning_not_found]) (rng w)) ∧
      _load_all_roles w = (Ret [], w)
  | Unparsable =>
      _load_normalized w = (Raise JSONDecodeError, w) ∧
      _load_all_roles w = (Raise JSONDecodeError, w)
  | NotAnObject =>
      _load_normalized w = (Raise AttributeError, w) ∧
      _load_all_roles w = (Raise AttributeError, w)
  | Document roles =>
      _load_normalized w = (Ret (role_map_of (default [] roles)), w) ∧
      _load_all_roles w
        = (Ret (seq (length (heap w)) (length (default [] roles))),
           extended w ((λ r, mkObj r None) <$> default [] roles) (rng w))
  end.
Proof.
  unfold _load_normalized, _load_all_roles. unfold_M.
  destruct (roles_file (role_db w)) as [| | |roles] eqn:Hsrc; simpl; try done.
  split; [done|]. apply mapM_alloc.
Qed.

(** ** Fuzzy resolution *)

(** The recursion on the matching blocks has fuel to spare: a block found in
    [a] ends within [a]. *)
Lemma next_row_bound (c : ascii) (b : list ascii) (j2len : list nat) (n : nat) :
  Forall (λ k, k ≤ n)%nat j2len → Forall (λ k, k ≤ S n)%nat (next_row c b j2len).
Proof.
  intros Hall. unfold next_row.
  assert (Hall' : Forall (λ k, k ≤ n)%nat (O :: j2len)) by (constructor; [lia|done]).
  clear Hall. revert b. induction Hall' as [|k l Hk _ IH]; intros [|bj b]; simpl;
    try constructor.
  - destruct (Ascii.eqb c bj); lia.
  - apply IH.
Qed.

Lemma scan_row_bound (i j : nat) (row : list nat) (best : nat * nat * nat) :
  Forall (λ k, k ≤ S i)%nat row →
  (best.1.1 + best.2 ≤ S i)%nat →
  ((scan_row i j row best).1.1 + (scan_row i j row best).2 ≤ S i)%nat.
Proof.
  revert j best. induction row as [|k row IH]; intros j best Hrow Hbest; simpl; [done|].
  apply Forall_cons in Hrow as [Hk Hrow]. apply IH; [done|].
  destruct (best.2 <? k)%nat; simpl; lia.
Qed.

Lemma longest_from_bound (a b : list ascii) (i : nat) (j2len : list nat)
    (best : nat * nat * nat) :
  Forall (λ k, k ≤ i)%nat j2len →
  (best.1.1 + best.2 ≤ i)%nat →
  ((longest_from i a b j2len best).1.1 + (longest_from i a b j2len best).2
   ≤ i + length a)%nat.
Proof.
  revert i j2len best. induction a as [|c a IH]; intros i j2len best Hrow Hbest; simpl.
  - lia.
  - replace (i + S (length a))%nat with (S i + length a)%nat by lia.
    apply IH; [by apply next_row_bound|].
    apply scan_row_bound; [by apply next_row_bound | lia].
Qed.

Lemma find_longest_match_bound (a b : list ascii) :
  ((find_longest_match a b).1.1 + (find_longest_match a b).2 ≤ length a)%nat.
Proof.
  unfold find_longest_match.
  apply (longest_from_bound a b 0); [|simpl; lia].
  apply Forall_forall. intros k Hk. apply list_elem_of_In, repeat_spec in Hk. lia.
Qed.

Lemma matching_size_fuel (fuel1 fuel2 : nat) (a b : list ascii) :
  (length a ≤ fuel1)%nat → (length a ≤ fuel2)%nat →
  matching_size fuel1 a b = matching_size fuel2 a b.
Proof.
  revert fuel2 a b. induction fuel1 as [|fuel1 IH]; intros fuel2 a b H1 H2.
  - destruct a; [|simpl in H1; lia]. by destruct fuel2.
  - destruct fuel2 as [|fuel2].
    { destruct a; [done | simpl in H2; lia]. }
    simpl. pose proof (find_longest_match_bound a b) as Hb.
    destruct (find_longest_match a b) as [[i j] k]. simpl in Hb.
    destruct (Nat.eqb_spec k 0) as [|Hk]; [done|].
    rewrite (IH fuel2 (take i a)), (IH fuel2 (drop (i + k) a)); [done|..];
      rewrite ?length_take, ?length_drop; lia.
Qed.

Lemma scored_lt_le (p q : Q * string) : scored_lt p q = true → (p.1 <= q.1)%Q.
Proof.
  unfold scored_lt. destruct (Qcompare_spec p.1 q.1) as [Heq|Hlt|Hgt]; intros H.
  - rewrite Heq. apply Qle_refl.
  - by apply Qlt_le_weak.
  - done.
Qed.

Lemma scored_not_lt_le (p q : Q * string) : scored_lt p q = false → (q.1 <= p.1)%Q.
Proof.
  unfold scored_lt. destruct (Qcompare_spec p.1 q.1) as [Heq|Hlt|Hgt]; intros H.
  - rewrite Heq. apply Qle_refl.
  - done.
  - by apply Qlt_le_weak.
Qed.

(** [max]: an element of the list, of greatest score. *)
Lemma best_of_spec (first : Q * string) (rest : list (Q * string)) :
  best_of first rest ∈ first :: rest ∧
  ∀ q, q ∈ first :: rest → (q.1 <= (best_of first rest).1)%Q.
Proof.
  unfold best_of. revert first. induction rest as [|p rest IH]; intros first; simpl.
  - split; [left|]. intros q Hq. apply list_elem_of_singleton in Hq as ->.
    apply Qle_refl.
  - destruct (scored_lt first p) eqn:Hlt.
    + destruct (IH p) as [Hin Hmax]. split; [by right|].
      intros q Hq. apply elem_of_cons in Hq as [->|Hq]; [|by apply Hmax].
      eapply Qle_trans; [by apply scored_lt_le|]. apply Hmax. left.
    + destruct (IH first) as [Hin Hmax]. split.
      * apply elem_of_cons in Hin as [->|Hin]; [left | by do 2 right].
      * intros q Hq. apply elem_of_cons in Hq as [->|Hq]; [apply Hmax; left|].
        apply elem_of_cons in Hq as [->|Hq]; [|apply Hmax; by right].
        eapply Qle_trans; [by apply scored_not_lt_le|]. apply Hmax. left.
Qed.

Lemma scored_Some (word : string) (cutoff : Q) (x : string) (p : Q * string) :
  scored word cutoff x = Some p ↔ (cutoff <= ratio x word)%Q ∧ p = (ratio x word, x).
Proof.
  unfold scored. destruct (Qle_bool cutoff (ratio x word)) eqn:Hle.
  - apply Qle_bool_iff in Hle. split; [by intros [= <-] | by intros [_ ->]].
  - split; [done|]. intros [Hle' _]. apply Qle_bool_iff in Hle'. congruence.
Qed.

Lemma scored_None (word : string) (cutoff : Q) (x : string) :
  scored word cutoff x = None ↔ (ratio x word < cutoff)%Q.
Proof.
  unfold scored. destruct (Qle_bool cutoff (ratio x word)) eqn:Hle.
  - apply Qle_bool_iff in Hle. split; [done|]. intros Hlt.
    by apply Qlt_not_le in Hlt.
  - split; [|done]. intros _. apply Qnot_le_lt. intros Hle'.
    apply Qle_bool_iff in Hle'. congruence.
Qed.

(** The contract of [get_close_matches] with [n = 1]. *)
Lemma get_close_matches_spec (word : string) (possibilities : list string) (cutoff : Q) :
  match get_close_matches word possibilities cutoff with
  | [] => ∀ x, x ∈ possibilities → (ratio x word < cutoff)%Q
  | [best] =>
      best ∈ possibilities ∧ (cutoff <= ratio best word)%Q ∧
      ∀ x, x ∈ possibilities → (cutoff <= ratio x word)%Q →
           (ratio x word <= ratio best word)%Q
  | _ => False
  end.
Proof.
  unfold get_close_matches.
  destruct (omap (scored word cutoff) possibilities) as [|p rest] eqn:Hres.
  - intros x Hx. apply scored_None.
    destruct (scored word cutoff x) as [q|] eqn:Hq; [|done].
    assert (Hin : q ∈ omap (scored word cutoff) possibilities)
      by (apply list_elem_of_omap; eauto).
    rewrite Hres in Hin. by apply not_elem_of_nil in Hin.
  - destruct (best_of_spec p rest) as [Hin Hmax]. rewrite <- Hres in Hin, Hmax.
    apply list_elem_of_omap in Hin as (best & Hbest & Hscored).
    apply scored_Some in Hscored as [Hle Heq]. rewrite Heq in *. simpl.
    split; [done|]. split; [done|]. intros x Hx Hxle.
    apply (Hmax (ratio x word, x)). apply list_elem_of_omap. exists x.
    split; [done|]. by apply scored_Some.
Qed.

Lemma elem_of_keys (index : gmap string string) (k : string) :
  k ∈ keys index ↔ is_Some (index !! k).
Proof.
  unfold keys. rewrite list_elem_of_fmap. split.
  - intros ([k' c] & -> & Hin). apply elem_of_map_to_list in Hin. by eexists.
  - intros [c Hc]. exists (k, c). split; [done|]. by apply elem_of_map_to_list.
Qed.




(** * Further properties of the role engine *)

(** ** Distances *)

(** X1. The distance is symmetric, its radicand is not negative, and it is
    zero exactly between equal metric tuples. *)
Theorem calculate_distance_metric (m1 m2 : metrics_tuple) :
  calculate_distance m1 m2 = calculate_distance m2 m1 ∧
  0 ≤ radicand (calculate_distance m1 m2) ∧
  (radicand (calculate_distance m1 m2) = 0 ↔ m1 = m2).
Proof.
  destruct m1 as [[[a1 a2] a3] a4], m2 as [[[b1 b2] b3] b4].
  unfold calculate_distance, sum_sq. cbn [radicand].
  split; [f_equal; nia|]. split; [nia|]. split.
  - intros H. assert (a1 = b1 ∧ a2 = b2 ∧ a3 = b3 ∧ a4 = b4) as (-> & -> & -> & ->);
      [nia | done].
  - intros [= -> -> -> ->]. nia.
Qed.

(** ** The index and the overlaps, as dictionaries *)

Lemma last_filter_is_Some {A} (P : A → Prop) `{!∀ x, Decision (P x)} (l : list A) :
  is_Some (last (filter P l)) ↔ ∃ x, x ∈ l ∧ P x.
Proof.
  split.
  - intros [x Hx]. apply last_filter_elem in Hx as [? ?]. eauto.
  - intros (x & Hx & HP).
    destruct (last (filter P l)) as [y|] eqn:Hlast; [by eexists|].
    apply last_None in Hlast.
    assert (Hin : x ∈ filter P l) by (by apply list_elem_of_filter).
    rewrite Hlast in Hin. by apply not_elem_of_nil in Hin.
Qed.

Lemma filter_same_key {B} `{!EqDecision B} (f : Role → B) (catalog : list Role) i R :
  NoDup (f <$> catalog) → catalog !! i = Some R →
  filter (λ o, f o = f R) catalog = [R].
Proof.
  revert i. induction catalog as [|o catalog IH]; intros i Hnd Hi; [done|].
  rewrite fmap_cons in Hnd. apply NoDup_cons in Hnd as [Hnotin Hnd].
  rewrite filter_cons. destruct i as [|i]; simpl in Hi.
  - injection Hi as ->. rewrite decide_True by done. f_equal.
    destruct (filter _ catalog) as [|o' l'] eqn:Hf; [done|].
    assert (Ho' : o' ∈ filter (λ o, f o = f R) catalog) by (rewrite Hf; left).
    apply list_elem_of_filter in Ho' as [Heq Ho']. exfalso.
    apply Hnotin. rewrite <- Heq. apply list_elem_of_fmap. eauto.
  - rewrite decide_False; [by eapply IH|].
    intros Heq. apply Hnotin. rewrite Heq.
    apply list_elem_of_fmap. exists R. split; [done|].
    by eapply list_elem_of_lookup_2.
Qed.

Lemma roles_normalized_round_trip_aux (catalog : list Role) (R : Role) :
  R ∈ catalog →
  ∃ canonical R',
    role_map_of catalog !! normalize (name R) = Some canonical ∧
    R' ∈ catalog ∧ name R' = canonical ∧
    normalize canonical = normalize (name R).
Proof.
  intros HR. rewrite role_map_lookup.
  destruct (proj2 (last_filter_is_Some
              (λ r, normalize (name r) = normalize (name R)) catalog)) as [R' HR'];
    [by exists R|].
  rewrite HR'. apply last_filter_elem in HR' as [Hin Heq]. by exists (name R'), R'.
Qed.

(** X2. Every catalog role is found in the normalized-name index under its
    lower-cased, trimmed name: the value is the name of a catalog role with
    the same normalized name, and is the role's own name when no two roles
    normalize alike.  Conversely every key of the index is the normalized
    name of its value. *)
Theorem roles_normalized_round_trip (catalog : list Role) (R : Role) :
  R ∈ catalog →
  (∃ canonical R',
     role_map_of catalog !! normalize (name R) = Some canonical ∧
     R' ∈ catalog ∧ name R' = canonical ∧
     normalize canonical = normalize (name R)) ∧
  (NoDup ((λ r, normalize (name r)) <$> catalog) →
     role_map_of catalog !! normalize (name R) = Some (name R)) ∧
  (∀ k canonical, role_map_of catalog !! k = Some canonical →
     normalize canonical = k ∧ canonical ∈ name <$> catalog).
Proof.
  intros HR. split; [|split].
  - rewrite role_map_lookup.
    destruct (proj2 (last_filter_is_Some
                (λ r, normalize (name r) = normalize (name R)) catalog)) as [R' HR'];
      [by exists R|].
    rewrite HR'. apply last_filter_elem in HR' as [Hin Heq]. by exists (name R'), R'.
  - intros Hnd. apply list_elem_of_lookup in HR as [i Hi].
    rewrite role_map_lookup.
    by rewrite (filter_same_key (λ r, normalize (name r)) catalog i R).
  - intros k canonical Hk.
    apply role_map_canonical in Hk as (R' & HR' & <- & Hnorm).
    split; [done|]. apply list_elem_of_fmap. eauto.
Qed.

Lemma roles_normalized_round_trip_witness :
  role_map_of tech_roles !! normalize "Data Scientist" = Some "Data Scientist".
Proof.
  refine (proj1 (proj2 (roles_normalized_round_trip tech_roles
                          (flat_role "Data Scientist" 7) _)) _).
  - vm_compute. right. left.
  - apply (bool_decide_unpack _). by vm_compute.
Defined.

Lemma foldl_insert_dom {V} (kf : Role → string) (vf : Role → V) (l : list Role)
    (m : gmap string V) :
  dom (foldl (λ acc r, <[kf r := vf r]> acc) m l) = list_to_set (kf <$> l) ∪ dom m.
Proof.
  revert m. induction l as [|r l IH]; intros m; simpl.
  - by rewrite union_empty_l_L.
  - rewrite IH, dom_insert_L.
    apply set_eq. intros k. rewrite !elem_of_union. tauto.
Qed.

Lemma size_list_to_set_le (l : list string) :
  (size (list_to_set l : gset string) ≤ length l)%nat.
Proof.
  induction l as [|x l IH]; [done|].
  rewrite list_to_set_cons. cbn [length].
  rewrite size_union_alt, size_singleton.
  pose proof (subseteq_size (list_to_set l ∖ {[x]}) (list_to_set l : gset string)
                (subseteq_difference_l _ _ _ (reflexivity _))).
  lia.
Qed.

(** X3. The overlaps have exactly one entry per role name of the catalog, and
    the index one entry per normalized name, so neither has more entries than
    the catalog has roles; with pairwise distinct names the overlaps have as
    many entries as the catalog (the number that startup prints). *)
Theorem overlaps_keys (catalog : list Role) :
  dom (_calculate_overlaps catalog) = list_to_set (name <$> catalog) ∧
  dom (role_map_of catalog) = list_to_set ((λ r, normalize (name r)) <$> catalog) ∧
  (size (_calculate_overlaps catalog) ≤ length catalog)%nat ∧
  (size (role_map_of catalog) ≤ length catalog)%nat ∧
  (NoDup (name <$> catalog) → size (_calculate_overlaps catalog) = length catalog).
Proof.
  assert (Hdo : dom (_calculate_overlaps catalog) = list_to_set (name <$> catalog)).
  { unfold _calculate_overlaps.
    rewrite (foldl_insert_dom name (overlaps_of_role catalog)).
    by rewrite dom_empty_L, union_empty_r_L. }
  assert (Hdi : dom (role_map_of catalog)
                = list_to_set ((λ r, normalize (name r)) <$> catalog)).
  { unfold role_map_of.
    rewrite (foldl_insert_dom (λ r, normalize (name r)) name).
    by rewrite dom_empty_L, union_empty_r_L. }
  split; [done|]. split; [done|].
  rewrite <- !size_dom, Hdo, Hdi. split; [|split].
  - rewrite <- (length_fmap name catalog). apply size_list_to_set_le.
  - rewrite <- (length_fmap (λ r, normalize (name r)) catalog).
    apply size_list_to_set_le.
  - intros Hnd. rewrite size_list_to_set by done. apply length_fmap.
Qed.

Lemma calculate_overlaps_entry (catalog : list Role) (nm : string) (e : overlap_entry) :
  _calculate_overlaps catalog !! nm = Some e →
  ∃ R, R ∈ catalog ∧ name R = nm ∧ e = overlaps_of_role catalog R.
Proof.
  rewrite calculate_overlaps_lookup. intros He.
  destruct (last _) as [R|] eqn:Hlast; [|done]. injection He as <-.
  apply last_filter_elem in Hlast as [? ?]. eauto.
Qed.

Lemma ranked_items_sorted (ds : list (string * distance_t)) :
  StronglySorted item_le (to_item <$> stable_sort by_distance ds).
Proof.
  eapply StronglySorted_fmap; [|apply (stable_sort_sorted distance_key)].
  by intros x y Hxy.
Qed.

(** X4. In every overlap entry, the close list and the oddball list are
    ascending by distance; the close list is a prefix of the ranking of the
    other roles, so no role left out of it is nearer than one of its
    members; the oddball list is followed in the ranking by the
    [min(8, n) - 5] farthest roles, which are never oddball, and preceded by
    roles that are at most as far. *)
Theorem close_nearest_oddball_far (catalog : list Role) (nm : string) (e : overlap_entry) :
  _calculate_overlaps catalog !! nm = Some e →
  ∃ R rest nearer farther,
    R ∈ catalog ∧ name R = nm ∧
    let ranked :=
      to_item <$> stable_sort by_distance
                    (distances_from (name R) (metrics_of R) catalog) in
    ranked = close e ++ rest ∧
    ranked = nearer ++ oddball e ++ farther ∧
    length farther = (8 `min` length ranked - 5)%nat ∧
    StronglySorted item_le (close e) ∧
    StronglySorted item_le (oddball e) ∧
    (∀ x y, x ∈ close e → y ∈ rest → item_le x y) ∧
    (∀ x y, x ∈ nearer → y ∈ oddball e → item_le x y) ∧
    (∀ y z, y ∈ oddball e → z ∈ farther → item_le y z).
Proof.
  intros He. apply calculate_overlaps_entry in He as (R & HR & Hname & ->).
  set (ds := stable_sort by_distance (distances_from (name R) (metrics_of R) catalog)).
  pose proof (ranked_items_sorted (distances_from (name R) (metrics_of R) catalog))
    as Hsorted. fold ds in Hsorted.
  assert (Hclose : close (overlaps_of_role catalog R) = take 15 (to_item <$> ds)).
  { unfold overlaps_of_role. cbn [close]. fold ds.
    by rewrite slice_to_nonneg, fmap_take by (unfold CLOSE_POOL_SIZE; lia). }
  assert (Hodd : oddball (overlaps_of_role catalog R)
                 = take 5 (drop (length (to_item <$> ds) - 8) (to_item <$> ds))).
  { unfold overlaps_of_role. cbn [oddball]. fold ds.
    assert (H8 : oddball_pool = 8) by reflexivity.
    rewrite H8, slice_from_neg, slice_to_nonneg by (unfold ODDBALL_POOL_SIZE; lia).
    by rewrite fmap_drop, length_fmap. }
  set (ranked := to_item <$> ds) in *.
  exists R, (drop 15 ranked), (take (length ranked - 8) ranked),
         (drop 5 (drop (length ranked - 8) ranked)).
  split; [done|]. split; [done|]. cbn zeta.
  assert (E1 : ranked = close (overlaps_of_role catalog R) ++ drop 15 ranked)
    by (by rewrite Hclose, take_drop).
  assert (E2 : ranked = take (length ranked - 8) ranked
                        ++ oddball (overlaps_of_role catalog R)
                        ++ drop 5 (drop (length ranked - 8) ranked))
    by (by rewrite Hodd, !take_drop).
  split; [exact E1|]. split; [exact E2|]. split.
  { clear. subst ranked ds. rewrite !length_drop. lia. }
  pose proof Hsorted as Hs1. rewrite E1 in Hs1.
  pose proof Hsorted as Hs2. rewrite E2 in Hs2.
  apply StronglySorted_app in Hs1 as (Hcr & Hc & _).
  apply StronglySorted_app in Hs2 as (Hno & _ & Hs2).
  apply StronglySorted_app in Hs2 as (Hof & Ho & _).
  repeat split; try done.
  intros x y Hx Hy. apply Hno; [done|]. apply elem_of_app. by left.
Qed.

Lemma close_nearest_oddball_far_witness :
  ∃ R rest nearer farther,
    R ∈ lettered_roles 24 ∧ name R = "A" ∧
    let ranked :=
      to_item <$> stable_sort by_distance
                    (distances_from (name R) (metrics_of R) (lettered_roles 24)) in
    ranked = close (overlaps_of_role (lettered_roles 24)
                      (mkRole "A" (Some 1) None None None)) ++ rest ∧
    ranked = nearer ++ oddball (overlaps_of_role (lettered_roles 24)
                                  (mkRole "A" (Some 1) None None None)) ++ farther ∧
    length farther = (8 `min` length ranked - 5)%nat.
Proof.
  destruct (close_nearest_oddball_far (lettered_roles 24) "A"
              (overlaps_of_role (lettered_roles 24) (mkRole "A" (Some 1) None None None)))
    as (R & rest & nearer & farther & HR & Hname & H1 & H2 & H3 & _).
  - vm_compute. reflexivity.
  - exact (ex_intro _ R (ex_intro _ rest (ex_intro _ nearer (ex_intro _ farther
             (conj HR (conj Hname (conj H1 (conj H2 H3)))))))).
Defined.

Lemma pool_items_of_role (catalog : list Role) (R : Role) (x : match_item) :
  x ∈ close (overlaps_of_role catalog R) ++ oddball (overlaps_of_role catalog R) →
  ∃ O, O ∈ catalog ∧ name O = item_name x ∧ name O ≠ name R ∧
       item_distance x = calculate_distance (metrics_of R) (metrics_of O).
Proof.
  intros Hx.
  assert (Hin : x ∈ to_item <$> distances_from (name R) (metrics_of R) catalog).
  { rewrite <- (stable_sort_perm distance_key).
    unfold overlaps_of_role in Hx. cbn [close oddball] in Hx.
    apply elem_of_app in Hx as [Hx|Hx].
    - apply list_elem_of_fmap in Hx as (d & -> & Hd). apply list_elem_of_fmap.
      exists d. split; [done|].
      eapply sublist_subseteq; [apply slice_to_sublist | exact Hd].
    - eapply sublist_subseteq in Hx; [|apply slice_to_sublist].
      apply list_elem_of_fmap in Hx as (d & -> & Hd). apply list_elem_of_fmap.
      exists d. split; [done|].
      eapply sublist_subseteq; [apply slice_from_sublist | exact Hd]. }
  rewrite distances_from_filter in Hin.
  apply list_elem_of_fmap in Hin as (d & -> & Hd).
  apply list_elem_of_fmap in Hd as (O & -> & HO).
  apply list_elem_of_filter in HO as [Hne HO]. by exists O.
Qed.

(** X5. Every entry of a pool names a catalog role other than the one the
    pool belongs to, and its stored distance is the distance between the
    metrics of the two roles. *)
Theorem overlap_distances_are_true (catalog : list Role) (nm : string)
    (e : overlap_entry) (x : match_item) :
  _calculate_overlaps catalog !! nm = Some e →
  x ∈ close e ++ oddball e →
  ∃ R O, R ∈ catalog ∧ name R = nm ∧ O ∈ catalog ∧
         name O = item_name x ∧ name O ≠ nm ∧
         item_distance x = calculate_distance (metrics_of R) (metrics_of O).
Proof.
  intros He Hx. apply calculate_overlaps_entry in He as (R & HR & Hname & ->).
  apply pool_items_of_role in Hx as (O & HO & Hn & Hne & Hd).
  exists R, O. rewrite <- Hname. done.
Qed.

Lemma overlap_distances_are_true_witness :
  ∃ R O, R ∈ three_roles ∧ name R = "Analyst" ∧ O ∈ three_roles ∧
         name O = "Tester" ∧ name O ≠ "Analyst" ∧
         Sqrt 256 = calculate_distance (metrics_of R) (metrics_of O).
Proof.
  apply (overlap_distances_are_true three_roles "Analyst"
           (overlaps_of_role three_roles (flat_role "Analyst" 1))
           (mkItem "Tester" (Sqrt 256))).
  - vm_compute. reflexivity.
  - vm_compute. right. left.
Defined.

(** ** Lazy loading *)


(** ** Startup *)


(** ** Edge cases of a request *)

(** X8. On an empty catalog (a missing file, or a document without roles)
    every call with [count >= 0] returns an empty list of roles and allocates
    nothing; the response is still marked personalized when an unknown role
    comes with non-empty metrics. *)
Theorem empty_catalog_gives_no_roles (w : world) (current : option string)
    (metrics : option (gmap string Z)) (count : Z) :
  loaded [] w →
  0 ≤ count →
  ∃ r w',
    get_personalized_roles current metrics count w = (Ret r, w') ∧
    roles r = [] ∧ heap w' = heap w ∧
    personalized r = truthy_str current && truthy_dict metrics.
Proof.
  intros Hl Hcount.
  pose proof (get_personalized_roles_path [] w current metrics count Hl) as Hp.
  destruct Hp as [Hcase|s canonical R selected rs -> Hne Hcan HR Hname Hsub Hlen
                       |s m selected rs -> Hne Hcan -> Hm Hsub Hlen].
  - destruct (random_roles_spec [] w count Hl Hcount) as (picked & rs & -> & _ & Hlen & _).
    eexists _, _. split; [done|]. simpl in *.
    assert (picked = []) as -> by (apply length_zero_iff_nil; lia).
    split; [done|]. split; [done|].
    destruct Hcase as [->|[_ ->]]; [done|]. by rewrite andb_false_r.
  - by apply elem_of_nil in HR.
  - eexists _, _. split; [done|].
    apply submseteq_nil_r in Hsub as ->. simpl. rewrite app_nil_r.
    split; [done|]. split; [done|].
    destruct (String.eqb_spec s ""); [done|].
    by rewrite bool_decide_false.
Qed.

Lemma empty_catalog_gives_no_roles_witness :
  ∃ r w',
    get_personalized_roles (Some "Plumber") (Some {[ "technical" := 3 ]}) 27
      (init_role_database (fresh_world Missing [])).2 = (Ret r, w') ∧
    roles r = [] ∧ heap w' = heap (init_role_database (fresh_world Missing [])).2 ∧
    personalized r
    = truthy_str (Some "Plumber") && truthy_dict (Some {[ "technical" := 3 ]}).
Proof.
  apply (empty_catalog_gives_no_roles (init_role_database (fresh_world Missing [])).2
           (Some "Plumber") (Some {[ "technical" := 3 ]}) 27).
  - loaded_by_computation (@nil loc).
  - lia.
Defined.



(** ** The personalized paths on a catalog larger than the pools *)

Lemma select_roles_exact (entry : overlap_entry) (count : Z) (w : world) :
  0 ≤ count →
  (length (close entry) ≤ 20)%nat → (length (oddball entry) ≤ 7)%nat →
  ∃ selected rs, select_roles entry count w = (Ret selected, redrawn w rs) ∧
    selected ⊆+ close entry ++ oddball entry ∧
    length selected
    = (Z.to_nat count `min` (length (close entry) + length (oddball entry)))%nat.
Proof.
  intros Hcount Hc Ho. unfold select_roles.
  destruct (random_sample_spec (close entry)
              (Z.min CLOSE_MATCHES_COUNT (Z.of_nat (length (close entry)))) w)
    as (sc & rs1 & Hsc & Hsub1 & Hl1); [unfold CLOSE_MATCHES_COUNT; lia|].
  rewrite (bind_ret _ _ _ _ _ Hsc).
  destruct (random_sample_spec (oddball entry)
              (Z.min ODDBALL_COUNT (Z.of_nat (length (oddball entry)))) (redrawn w rs1))
    as (so & rs2 & Hso & Hsub2 & Hl2); [unfold ODDBALL_COUNT; lia|].
  rewrite (bind_ret _ _ _ _ _ Hso).
  destruct (random_shuffle_spec (sc ++ so) (redrawn (redrawn w rs1) rs2))
    as (sh & rs3 & Hsh & Hperm).
  rewrite (bind_ret _ _ _ _ _ Hsh).
  exists (slice_to count sh), rs3. split; [done|]. split.
  - transitivity sh; [apply sublist_submseteq, slice_to_sublist|].
    rewrite Hperm. by apply submseteq_app.
  - rewrite slice_to_nonneg, length_take, Hperm, length_app, Hl1, Hl2 by done.
    unfold CLOSE_MATCHES_COUNT, ODDBALL_COUNT. lia.
Qed.

Lemma role_named_unique (catalog : list Role) (O : Role) :
  NoDup (name <$> catalog) → O ∈ catalog → role_named catalog (name O) = Some O.
Proof.
  unfold role_named. induction catalog as [|r catalog IH]; intros Hnd HO.
  - by apply elem_of_nil in HO.
  - rewrite fmap_cons in Hnd. apply NoDup_cons in Hnd as [Hnotin Hnd]. simpl.
    destruct (String.eqb_spec (name r) (name O)) as [Heq|Hne].
    + apply elem_of_cons in HO as [->|HO]; [done|]. exfalso.
      apply Hnotin. rewrite Heq. apply list_elem_of_fmap. eauto.
    + apply elem_of_cons in HO as [->|HO]; [done|]. by apply IH.
Qed.

(** The objects created for entries that all name catalog roles. *)
Lemma resolve_known (catalog : list Role) (selected : list match_item) :
  NoDup (name <$> catalog) →
  Forall (λ x, ∃ O, O ∈ catalog ∧ name O = item_name x) selected →
  length (resolve catalog selected) = length selected ∧
  (λ o : role_obj, name o) <$> resolve catalog selected = item_name <$> selected.
Proof.
  intros Hnd. induction 1 as [|x selected (O & HO & Hname) _ [IH1 IH2]]; [done|].
  rewrite resolve_cons, <- Hname, (role_named_unique catalog O) by done.
  split; [simpl; by rewrite IH1|].
  rewrite !fmap_cons, IH2. simpl. by rewrite Hname.
Qed.

Lemma take_take_drop_sublist {A} (l : list A) (k1 k2 n : nat) :
  (k1 ≤ k2)%nat → take k1 l ++ take n (drop k2 l) `sublist_of` l.
Proof.
  intros Hk. rewrite <- (take_drop k1 l) at 3. apply sublist_app; [done|].
  replace k2 with (k1 + (k2 - k1))%nat by lia. rewrite <- drop_drop.
  etransitivity; [apply sublist_take | apply sublist_drop].
Qed.

Lemma precomputed_pools_distinct (catalog : list Role) (i : nat) (R : Role) :
  NoDup (name <$> catalog) → catalog !! i = Some R →
  (15 + 8 < length catalog)%nat →
  NoDup (item_name <$> close (overlaps_of_role catalog R)
                       ++ oddball (overlaps_of_role catalog R)) ∧
  length (close (overlaps_of_role catalog R)) = 15%nat ∧
  length (oddball (overlaps_of_role catalog R)) = 5%nat.
Proof.
  intros Hnd Hi Hlen. unfold overlaps_of_role. cbn [close oddball].
  pose proof (ranked_length catalog i R Hnd Hi) as Hrl.
  pose proof (ranked_names_NoDup catalog (name R) (metrics_of R) Hnd) as Hrn.
  set (ranked := stable_sort by_distance _) in *.
  assert (H8 : oddball_pool = 8) by reflexivity.
  rewrite H8, slice_from_neg by lia.
  rewrite !slice_to_nonneg by (unfold CLOSE_POOL_SIZE, ODDBALL_POOL_SIZE; lia).
  change (Z.to_nat CLOSE_POOL_SIZE) with 15%nat.
  change (Z.to_nat ODDBALL_POOL_SIZE) with 5%nat. change (Z.to_nat 8) with 8%nat.
  split; [|rewrite !length_fmap, !length_take, length_fmap, length_drop; lia].
  rewrite <- fmap_take, <- fmap_app, <- list_fmap_compose.
  eapply sublist_NoDup; [exact Hrn|].
  apply (fmap_sublist (λ d : string * distance_t, d.1)).
  apply take_take_drop_sublist. lia.
Qed.

Lemma same_name_same_role (catalog : list Role) (R1 R2 : Role) :
  NoDup (name <$> catalog) → R1 ∈ catalog → R2 ∈ catalog →
  name R1 = name R2 → R1 = R2.
Proof.
  intros Hnd H1 H2 Heq.
  pose proof (role_named_unique catalog R1 Hnd H1) as E1.
  pose proof (role_named_unique catalog R2 Hnd H2) as E2.
  rewrite Heq in E1. congruence.
Qed.

(** X10. On a loaded catalog of more than 23 roles with pairwise distinct
    names, a call whose [current_role] resolves to the catalog role [R]
    returns exactly [min(count, 20)] roles (never the 27 of the default
    count): pairwise distinct catalog roles other than [R], each with the
    distance between its metrics and those of [R]. *)
Theorem precomputed_path_exact (catalog : list Role) (w : world) (current : string)
    (metrics : option (gmap string Z)) (count : Z) (R : Role) :
  loaded catalog w →
  NoDup (name <$> catalog) →
  (15 + 8 < length catalog)%nat →
  0 ≤ count →
  current ≠ "" →
  R ∈ catalog →
  role_map_of catalog !! normalize current = Some (name R) →
  ∃ r w',
    get_personalized_roles (Some current) metrics count w = (Ret r, w') ∧
    length (roles r) = (Z.to_nat count `min` 20)%nat ∧
    NoDup ((λ o : role_obj, name o) <$> shown w' r) ∧
    Forall (λ o : role_obj,
              fields o ∈ catalog ∧ name o ≠ name R ∧
              distance o = Some (calculate_distance (metrics_of R) (metrics_of o)))
           (shown w' r).
Proof.
  intros Hl Hnd Hlen Hcount Hne HR Hcan.
  pose proof Hl as (locs & Hall & Hobjs & Hidx & Hov).
  pose proof HR as HR'. apply list_elem_of_lookup in HR' as [i Hi].
  destruct (precomputed_pools_distinct catalog i R Hnd Hi Hlen) as (Hpn & Hlc & Hlo).
  destruct (select_roles_exact (overlaps_of_role catalog R) count w Hcount)
    as (selected & rs & Hsel & Hsub & Hsl); [lia..|].
  assert (Hknown : Forall (λ x, ∃ O, O ∈ catalog ∧ name O = item_name x) selected).
  { apply Forall_forall. intros x Hx.
    destruct (pool_items_of_role catalog R x) as (O & HO & Hn & _);
      [by eapply elem_of_submseteq | eauto]. }
  destruct (resolve_known catalog selected Hnd Hknown) as [Hrl Hrn].
  eexists _, _. split.
  { rewrite (get_personalized_roles_exact catalog _ (name R)) by done.
    unfold _get_roles_from_database.
    rewrite (bind_ret _ _ _ _ _ (roles_normalized_loaded _ _ Hidx)), Hcan.
    rewrite (bind_ret _ _ _ _ _ (overlaps_loaded _ _ Hov)).
    rewrite calculate_overlaps_lookup, (filter_same_name _ i) by done. simpl.
    rewrite (bind_ret _ _ _ _ _ Hsel).
    rewrite (bind_ret _ _ _ _ _
               (with_distances_loaded catalog selected _ (loaded_redrawn _ _ rs Hl))).
    reflexivity. }
  rewrite shown_extended. cbn [roles]. rewrite length_seq, Hrl, Hsl, Hlc, Hlo.
  split; [done|]. split.
  - rewrite Hrn. eapply submseteq_NoDup; [|exact Hpn]. by apply fmap_submseteq.
  - apply Forall_forall. intros o Ho.
    apply resolve_elem in Ho as (sel & O' & Hsel' & HO' & Hname' & _ & ->). simpl.
    destruct (pool_items_of_role catalog R sel) as (O & HO & Hn & Hne' & Hd);
      [by eapply elem_of_submseteq|].
    assert (O' = O) as -> by (apply (same_name_same_role catalog); congruence).
    rewrite Hn in Hne'. rewrite Hname'. by rewrite Hd.
Qed.

Lemma precomputed_path_exact_witness :
  ∃ r w',
    get_personalized_roles (Some " a ") None 27 (startup (lettered_roles 24) [3; 1; 4]%nat)
      = (Ret r, w') ∧
    length (roles r) = (Z.to_nat 27 `min` 20)%nat.
Proof.
  destruct (precomputed_path_exact (lettered_roles 24)
              (startup (lettered_roles 24) [3; 1; 4]%nat) " a " None 27
              (mkRole "A" (Some 1) None None None))
    as (r & w' & Hrun & Hlen & _).
  - loaded_by_computation (seq 0 24).
  - apply (bool_decide_unpack _). by vm_compute.
  - vm_compute. lia.
  - lia.
  - discriminate.
  - vm_compute. left.
  - vm_compute. reflexivity.
  - exact (ex_intro _ r (ex_intro _ w' (conj Hrun Hlen))).
Defined.





(** ** The endpoints *)




Lemma role_named_Some (catalog : list Role) (nm : string) :
  nm ∈ name <$> catalog →
  ∃ O, role_named catalog nm = Some O ∧ O ∈ catalog ∧ name O = nm.
Proof.
  intros Hin. apply list_elem_of_fmap in Hin as (R & -> & HR).
  unfold role_named.
  destruct (find _ catalog) as [O|] eqn:Hfind.
  - apply find_some in Hfind as [Hin Heq].
    apply String.eqb_eq in Heq. apply list_elem_of_In in Hin. eauto.
  - exfalso. apply list_elem_of_In in HR.
    pose proof (find_none _ _ Hfind R HR) as Hf. simpl in Hf.
    by rewrite String.eqb_refl in Hf.
Qed.

(** X13. [POST /api/infer-industry] on the index and the roles of one
    catalog.  An exact match of the normalized input wins over the fuzzy
    lookup and answers 200 from the database with confidence 1; otherwise a
    fuzzy match answers 200 with confidence 0.95 and the original input; a
    role of admissible length that resolves neither way gets status 500,
    since the analyzer has no [infer_industry] method; a missing ['role'] or
    a normalized name of less than 2 or more than 100 characters gets status
    400 before any lookup. *)
Theorem infer_industry_response (catalog : list Role) (data : option (option string)) :
  let index := role_map_of catalog in
  match data with
  | None | Some None =>
      infer_industry index catalog data = (400, IndustryError "Missing required field: role")
  | Some (Some role) =>
      match infer_industry_lookup index catalog role with
      | TooShort =>
          infer_industry index catalog data = (400, IndustryError "Role name too short") ∧
          (String.length (normalize role) < 2)%nat
      | TooLong =>
          infer_industry index catalog data = (400, IndustryError "Role name too long") ∧
          (100 < String.length (normalize role))%nat
      | FromDatabase canonical =>
          index !! normalize role = Some canonical ∧
          ∃ O, O ∈ catalog ∧ name O = canonical ∧
               infer_industry index catalog data
               = (200, IndustryFound canonical 1%Q "database" None (metrics_of O))
      | FromFuzzyMatch matched =>
          index !! normalize role = None ∧
          fuzzy_match index (normalize role) = Some matched ∧
          ∃ O, O ∈ catalog ∧ name O = matched ∧
               infer_industry index catalog data
               = (200, IndustryFound matched (Qmake 95 100) "fuzzy_match"
                         (Some role) (metrics_of O))
      | AskAI =>
          index !! normalize role = None ∧
          fuzzy_match index (normalize role) = None ∧
          infer_industry index catalog data = (500, IndustryException AttributeError)
      end
  end.
Proof.
  intros index. destruct data as [[role|]|]; [|done..].
  unfold infer_industry_lookup, infer_industry.
  destruct (String.length (normalize role) <? 2)%nat eqn:Hshort.
  { split; [done|]. by apply Nat.ltb_lt. }
  destruct (100 <? String.length (normalize role))%nat eqn:Hlong.
  { split; [done|]. by apply Nat.ltb_lt. }
  assert (Hexact : ∀ c, index !! normalize role = Some c →
            ∃ O, role_named catalog c = Some O ∧ O ∈ catalog ∧ name O = c).
  { intros c Hc. apply role_map_canonical in Hc as (R & HR & <- & _).
    apply role_named_Some, list_elem_of_fmap. eauto. }
  destruct (index !! normalize role) as [canonical|] eqn:Hidx.
  { destruct (Hexact canonical eq_refl) as (O & -> & HO & Hname). eauto. }
  clear Hexact. unfold fuzzy_match.
  pose proof (get_close_matches_spec (normalize role) (keys index) FUZZY_CUTOFF) as Hspec.
  destruct (get_close_matches (normalize role) (keys index) FUZZY_CUTOFF)
    as [|best [|]]; [done| |done].
  destruct Hspec as (Hin & _). apply elem_of_keys in Hin as [matched Hm].
  rewrite Hm.
  destruct (role_map_canonical _ _ _ Hm) as (R & HR & Hname & _).
  destruct (role_named_Some catalog matched) as (O & -> & HO & HnO).
  { apply list_elem_of_fmap. eauto. }
  split; [done|]. split; [done|]. by exists O.
Qed.

(** X14. Every catalog role is recognised by its own name, however the input
    is cased or padded: if the normalized input equals the normalized name of
    a catalog role and has between 2 and 100 characters, the answer is 200
    from the database, with the canonical name and the metrics of a catalog
    role of that normalized name. *)
Theorem infer_industry_finds_catalog_roles (catalog : list Role) (R : Role)
    (role : string) :
  R ∈ catalog →
  normalize role = normalize (name R) →
  (2 ≤ String.length (normalize role) ≤ 100)%nat →
  ∃ O, O ∈ catalog ∧ normalize (name O) = normalize (name R) ∧
       infer_industry (role_map_of catalog) catalog (Some (Some role))
       = (200, IndustryFound (name O) 1%Q "database" None (metrics_of O)).
Proof.
  intros HR Hnorm [Hlo Hhi]. unfold infer_industry.
  destruct (Nat.ltb_spec (String.length (normalize role)) 2); [lia|].
  destruct (Nat.ltb_spec 100 (String.length (normalize role))); [lia|].
  destruct (roles_normalized_round_trip_aux catalog R HR) as (c & R' & Hc & HR' & <- & Hn).
  rewrite Hnorm, Hc.
  destruct (role_named_Some catalog (name R')) as (O & -> & HO & HnO).
  { apply list_elem_of_fmap. eauto. }
  exists O. rewrite HnO. done.
Qed.

Lemma infer_industry_finds_catalog_roles_witness :
  ∃ O, O ∈ tech_roles ∧ normalize (name O) = normalize "Data Scientist" ∧
       infer_industry (role_map_of tech_roles) tech_roles (Some (Some "  DATA scientist "))
       = (200, IndustryFound (name O) 1%Q "database" None (metrics_of O)).
Proof.
  apply (infer_industry_finds_catalog_roles tech_roles (flat_role "Data Scientist" 7)).
  - vm_compute. right. left.
  - vm_compute. reflexivity.
  - vm_compute. lia.
Defined.

(** * Properties of the content limits *)

(** ** Strings *)

Lemma string_length_app (a b : string) :
  String.length (a +:+ b) = (String.length a + String.length b)%nat.
Proof. induction a as [|c a IH]; simpl; [done | by rewrite IH]. Qed.

Lemma string_length_prefix (n : nat) (s : string) :
  String.length (substring 0 n s) = (n `min` String.length s)%nat.
Proof.
  revert n. induction s as [|c s IH]; intros [|n]; simpl; try done.
  by rewrite IH.
Qed.

Lemma string_prefix_all (n : nat) (s : string) :
  (String.length s ≤ n)%nat → substring 0 n s = s.
Proof.
  revert n. induction s as [|c s IH]; intros [|n] Hn; simpl in *; try done; try lia.
  rewrite IH; [done | lia].
Qed.

Lemma ellipsize_length (limit keep : nat) (text : string) :
  (keep + 3 ≤ limit)%nat → (String.length (ellipsize limit keep text) ≤ limit)%nat.
Proof.
  intros Hk. unfold ellipsize.
  destruct (Nat.ltb_spec limit (String.length text)); [|done].
  rewrite string_length_app, string_length_prefix. simpl. lia.
Qed.

Lemma ellipsize_short (limit keep : nat) (text : string) :
  (String.length text ≤ limit)%nat → ellipsize limit keep text = text.
Proof.
  intros Hk. unfold ellipsize.
  destruct (Nat.ltb_spec limit (String.length text)); [lia | done].
Qed.

(** ** Words *)

Lemma split_ws_nonempty (c : ascii) (s : string) :
  is_space c = false → split_ws (String c s) ≠ [].
Proof.
  intros Hc. simpl. rewrite Hc. destruct s as [|c' s]; [done|].
  destruct (is_space c'); [done|]. by destruct (split_ws (String c' s)).
Qed.

Lemma split_ws_words (s : string) : Forall is_word (split_ws s).
Proof.
  induction s as [|c s IH]; [constructor|].
  cbn [split_ws]. destruct (is_space c) eqn:Hc; [done|].
  assert (Hone : is_word (String c EmptyString)).
  { split; [done|]. simpl. by rewrite Hc. }
  destruct s as [|c' s]; [constructor; [exact Hone | constructor]|].
  destruct (is_space c') eqn:Hc'; [by constructor|].
  pose proof (split_ws_nonempty c' s Hc') as Hne.
  destruct (split_ws (String c' s)) as [|w ws]; [done|].
  apply Forall_cons in IH as [[Hw1 Hw2] IH]. constructor; [|done].
  split; [done|]. simpl. by rewrite Hc, Hw2.
Qed.

Lemma split_ws_word (w : string) : is_word w → split_ws w = [w].
Proof.
  induction w as [|c w IH]; intros [Hne Hns]; [done|].
  simpl in Hns. apply andb_true_iff in Hns as [Hc Hns].
  apply negb_true_iff in Hc. cbn [split_ws]. rewrite Hc.
  destruct w as [|c' w]; [done|].
  pose proof Hns as Hns'. simpl in Hns'. apply andb_true_iff in Hns' as [Hc' _].
  apply negb_true_iff in Hc'. rewrite Hc'. by rewrite IH.
Qed.

Lemma split_ws_word_then_space (w rest : string) :
  is_word w → split_ws (w +:+ String " " rest) = w :: split_ws rest.
Proof.
  induction w as [|c w IH]; intros [Hne Hns]; [done|].
  simpl in Hns. apply andb_true_iff in Hns as [Hc Hns].
  apply negb_true_iff in Hc.
  change (String c w +:+ String " " rest) with (String c (w +:+ String " " rest)).
  destruct w as [|c' w].
  - change ("" +:+ String " " rest) with (String " " rest).
    cbn [split_ws]. rewrite Hc. done.
  - pose proof Hns as Hns'. simpl in Hns'. apply andb_true_iff in Hns' as [Hc' _].
    apply negb_true_iff in Hc'.
    assert (Hw : is_word (String c' w)) by done.
    specialize (IH Hw).
    change (String c' w +:+ String " " rest)
      with (String c' (w +:+ String " " rest)) in *.
    cbn [split_ws] in *. rewrite Hc. rewrite Hc' in *. by rewrite IH.
Qed.

Lemma split_ws_join (ws : list string) :
  Forall is_word ws → split_ws (String.concat " " ws) = ws.
Proof.
  induction 1 as [|w ws Hw Hws IH]; [done|].
  destruct ws as [|w2 ws]; [by apply split_ws_word|].
  change (String.concat " " (w :: w2 :: ws))
    with (w +:+ String " " (String.concat " " (w2 :: ws))).
  rewrite split_ws_word_then_space by done. by rewrite IH.
Qed.

Lemma shorten_skill_words (skill : string) :
  (length (split_ws (shorten_skill skill)) ≤ 4)%nat.
Proof.
  unfold shorten_skill.
  destruct (Nat.ltb_spec 4 (length (split_ws skill))) as [Hlong|Hshort]; [|done].
  rewrite split_ws_join by (apply Forall_take, split_ws_words).
  rewrite length_take. lia.
Qed.

Lemma shorten_skill_short (skill : string) :
  (length (split_ws skill) ≤ 4)%nat → shorten_skill skill = skill.
Proof.
  intros Hshort. unfold shorten_skill.
  destruct (Nat.ltb_spec 4 (length (split_ws skill))); [lia | done].
Qed.

(** ** Pages *)

Lemma pad_to_length {A} (n : nat) (filler : A) (l : list A) :
  (length l ≤ n)%nat → length (pad_to n filler l) = n.
Proof. intros Hl. unfold pad_to. rewrite length_app, length_replicate. lia. Qed.

Lemma pad_to_full {A} (n : nat) (filler : A) (l : list A) :
  length l = n → pad_to n filler l = l.
Proof. intros <-. unfold pad_to. by rewrite Nat.sub_diag, app_nil_r. Qed.

Lemma pad_to_Forall {A} (P : A → Prop) (n : nat) (filler : A) (l : list A) :
  P filler → Forall P l → Forall P (pad_to n filler l).
Proof.
  intros Hf Hl. unfold pad_to. apply Forall_app. split; [done|].
  by apply Forall_replicate.
Qed.

Lemma fmap_id_Forall {A} (f : A → A) (l : list A) :
  Forall (λ x, f x = x) l → f <$> l = l.
Proof. induction 1 as [|x l Hx _ IH]; [done|]. by rewrite fmap_cons, Hx, IH. Qed.

Ltac page_simpl :=
  cbn [page_type description tasks skills explanation other_keys orb].

Lemma type_is (a b : string) : a ≠ b → bool_decide (Some a = Some b) = false.
Proof. intros Hne. apply bool_decide_false. by intros [= ?]. Qed.

Lemma type_same (a : string) : bool_decide (Some a = Some a) = true.
Proof. by apply bool_decide_true. Qed.

(** What [enforce_page] does, by the type of the page. *)
Lemma enforce_page_overview (p : page) :
  page_type p = Some "overview" →
  enforce_page p =
  mkPage (page_type p)
         (if (150 <? String.length (default "" (description p)))%nat
          then Some (substring 0 147 (default "" (description p)) +:+ "...")
          else description p)
         (tasks p) (skills p) (explanation p) (other_keys p).
Proof.
  destruct p as [ty d t sk e o]. page_simpl. intros ->. unfold enforce_page.
  page_simpl. rewrite type_same.
  destruct (150 <? String.length (default "" d))%nat; page_simpl;
    rewrite !type_is by discriminate; done.
Qed.

Lemma enforce_page_day_in_life (p : page) :
  page_type p = Some "day_in_life" →
  enforce_page p =
  mkPage (page_type p) (description p)
         (Some (pad_to 5 filler_task (ellipsize 100 97 <$> take 5 (default [] (tasks p)))))
         (skills p) (explanation p) (other_keys p).
Proof.
  destruct p as [ty d t sk e o]. page_simpl. intros ->. unfold enforce_page.
  page_simpl. rewrite (type_is "day_in_life" "overview") by discriminate.
  page_simpl. rewrite type_same.
  page_simpl. rewrite !type_is by discriminate. done.
Qed.

Lemma enforce_page_skills (p : page) :
  page_type p = Some "sweet_spots" ∨ page_type p = Some "areas_for_growth" →
  enforce_page p =
  mkPage (page_type p) (description p) (tasks p)
         (Some (pad_to 7 filler_skill (shorten_skill <$> take 7 (default [] (skills p)))))
         (if (150 <? String.length (default "" (explanation p)))%nat
          then Some (substring 0 147 (default "" (explanation p)) +:+ "...")
          else explanation p)
         (other_keys p).
Proof.
  destruct p as [ty d t sk e o]. page_simpl. unfold enforce_page. page_simpl.
  intros [-> | ->].
  - rewrite (type_is "sweet_spots" "overview") by discriminate. page_simpl.
    rewrite (type_is "sweet_spots" "day_in_life") by discriminate. page_simpl.
    rewrite type_same. page_simpl.
    by destruct (150 <? String.length (default "" e))%nat.
  - rewrite (type_is "areas_for_growth" "overview") by discriminate. page_simpl.
    rewrite (type_is "areas_for_growth" "day_in_life") by discriminate. page_simpl.
    rewrite (type_is "areas_for_growth" "sweet_spots") by discriminate.
    rewrite type_same. page_simpl.
    by destruct (150 <? String.length (default "" e))%nat.
Qed.

Lemma enforce_page_other (p : page) :
  page_type p ≠ Some "overview" → page_type p ≠ Some "day_in_life" →
  page_type p ≠ Some "sweet_spots" → page_type p ≠ Some "areas_for_growth" →
  enforce_page p = p.
Proof.
  intros H1 H2 H3 H4. unfold enforce_page.
  rewrite (bool_decide_false _ H1). cbv zeta iota.
  rewrite (bool_decide_false _ H2). cbv zeta iota.
  by rewrite (bool_decide_false _ H3), (bool_decide_false _ H4).
Qed.

(** The four kinds of page. *)
Lemma page_type_cases (p : page) :
  page_type p = Some "overview" ∨ page_type p = Some "day_in_life" ∨
  (page_type p = Some "sweet_spots" ∨ page_type p = Some "areas_for_growth") ∨
  (page_type p ≠ Some "overview" ∧ page_type p ≠ Some "day_in_life" ∧
   page_type p ≠ Some "sweet_spots" ∧ page_type p ≠ Some "areas_for_growth").
Proof.
  destruct (decide (page_type p = Some "overview")); [tauto|].
  destruct (decide (page_type p = Some "day_in_life")); [tauto|].
  destruct (decide (page_type p = Some "sweet_spots")); [tauto|].
  destruct (decide (page_type p = Some "areas_for_growth")); tauto.
Qed.

Lemma enforce_page_keeps (p : page) :
  page_type (enforce_page p) = page_type p ∧
  other_keys (enforce_page p) = other_keys p.
Proof.
  destruct (page_type_cases p) as [H|[H|[H|(H1 & H2 & H3 & H4)]]].
  - by rewrite enforce_page_overview.
  - by rewrite enforce_page_day_in_life.
  - by rewrite enforce_page_skills.
  - by rewrite enforce_page_other.
Qed.

Lemma truncated_length (text : string) :
  (String.length (default "" (Some (substring 0 147 text +:+ "..."))) ≤ 150)%nat.
Proof.
  change (String.length (substring 0 147 text +:+ "...") ≤ 150)%nat.
  rewrite string_length_app, string_length_prefix.
  change (String.length "...") with 3%nat. lia.
Qed.

Lemma enforce_page_within (p : page) : within_limits (enforce_page p).
Proof.
  destruct (page_type_cases p) as [H|[H|[H|(H1 & H2 & H3 & H4)]]].
  - rewrite enforce_page_overview by done. unfold within_limits. page_simpl.
    rewrite H. split; [|split; [discriminate | intros [?|?]; discriminate]].
    intros _. destruct (Nat.ltb_spec 150 (String.length (default "" (description p)))).
    + apply truncated_length.
    + done.
  - rewrite enforce_page_day_in_life by done. unfold within_limits. page_simpl.
    rewrite H. split; [discriminate|]. split; [|intros [?|?]; discriminate].
    intros _. eexists. split; [done|]. split.
    + apply pad_to_length. rewrite length_fmap, length_take. lia.
    + apply pad_to_Forall; [vm_compute; lia|].
      apply Forall_fmap, Forall_forall. intros t _. apply ellipsize_length. lia.
  - rewrite enforce_page_skills by done. unfold within_limits. page_simpl.
    split; [destruct H as [H|H]; rewrite H; discriminate|].
    split; [destruct H as [H|H]; rewrite H; discriminate|].
    intros _. split.
    + eexists. split; [done|]. split.
      * apply pad_to_length. rewrite length_fmap, length_take. lia.
      * apply pad_to_Forall; [vm_compute; lia|].
        apply Forall_fmap, Forall_forall. intros sk _. apply shorten_skill_words.
    + destruct (Nat.ltb_spec 150 (String.length (default "" (explanation p)))).
      * apply truncated_length.
      * done.
  - rewrite enforce_page_other by done. unfold within_limits.
    split; [done|]. split; [done|]. by intros [?|?].
Qed.

Lemma enforce_page_fixed (p : page) : within_limits p → enforce_page p = p.
Proof.
  intros (Ho & Hd & Hs).
  destruct (page_type_cases p) as [H|[H|[H|(H1 & H2 & H3 & H4)]]].
  - rewrite enforce_page_overview by done. specialize (Ho H).
    destruct (Nat.ltb_spec 150 (String.length (default "" (description p)))); [lia|].
    by destruct p.
  - rewrite enforce_page_day_in_life by done.
    destruct (Hd H) as (ts & Hts & Hlen & Hall). rewrite Hts. simpl.
    rewrite take_ge by lia.
    rewrite (fmap_id_Forall (ellipsize 100 97) ts).
    + rewrite pad_to_full by done. destruct p. simpl in *. by subst.
    + eapply Forall_impl; [exact Hall|]. intros t Ht. by apply ellipsize_short.
  - rewrite enforce_page_skills by done.
    destruct (Hs H) as ((ss & Hss & Hlen & Hall) & He). rewrite Hss. simpl.
    rewrite take_ge by lia.
    rewrite (fmap_id_Forall shorten_skill ss).
    + rewrite pad_to_full by done.
      destruct (Nat.ltb_spec 150 (String.length (default "" (explanation p)))); [lia|].
      destruct p. simpl in *. by subst.
    + eapply Forall_impl; [exact Hall|]. intros sk Hsk. by apply shorten_skill_short.
  - by apply enforce_page_other.
Qed.

Lemma enforce_item_within (item : page_item) : item_within_limits (enforce_item item).
Proof. destruct item; [done|]. apply enforce_page_within. Qed.

Lemma enforce_item_fixed (item : page_item) :
  item_within_limits item → enforce_item item = item.
Proof. destruct item; [done|]. simpl. intros H. by rewrite enforce_page_fixed. Qed.

Lemma enforce_content_limits_within (result : pages_result) :
  Forall item_within_limits (default [] (pages (_enforce_content_limits result))).
Proof.
  unfold _enforce_content_limits. destruct result as [[ps|]]; simpl; [|done].
  apply Forall_fmap, Forall_forall. intros item _. apply enforce_item_within.
Qed.

(** ** [_enforce_content_limits] *)

(** X15. After [_enforce_content_limits] every page is within the limits: an
    overview description has at most 150 characters; a day-in-life page has
    exactly 5 tasks of at most 100 characters; a sweet-spots or
    areas-for-growth page has exactly 7 skills of at most 4 words and an
    explanation of at most 150 characters.  The pages keep their number,
    their order, their types and their other keys. *)
Theorem enforce_content_limits_establishes (result : pages_result) :
  match pages result, pages (_enforce_content_limits result) with
  | Some ps, Some ps' =>
      Forall item_within_limits ps' ∧
      Forall2 (λ item item',
                 match item, item' with
                 | NotADict, NotADict => True
                 | PageDict p, PageDict p' =>
                     page_type p' = page_type p ∧ other_keys p' = other_keys p
                 | _, _ => False
                 end) ps ps'
  | None, None => _enforce_content_limits result = result
  | _, _ => False
  end.
Proof.
  unfold _enforce_content_limits. destruct result as [[ps|]]; simpl; [|done].
  split.
  - apply Forall_fmap, Forall_forall. intros item _. apply enforce_item_within.
  - apply Forall2_fmap_r, Forall_Forall2_diag, Forall_forall.
    intros [|p] _; [done|]. apply enforce_page_keeps.
Qed.

(** X16. [_enforce_content_limits] is idempotent: applying it to its own
    output changes nothing. *)
Theorem enforce_content_limits_idempotent (result : pages_result) :
  _enforce_content_limits (_enforce_content_limits result)
  = _enforce_content_limits result.
Proof.
  unfold _enforce_content_limits. destruct result as [[ps|]]; simpl; [|done].
  f_equal. f_equal. rewrite <- list_fmap_compose.
  apply list_fmap_ext. intros i item _. simpl.
  apply enforce_item_fixed, enforce_item_within.
Qed.

(** X17. [_enforce_content_limits] returns a result unchanged exactly when
    all its pages are within the limits: conforming content is never
    truncated, shortened or padded, and any other content is changed. *)
Theorem enforce_content_limits_keeps_conforming (result : pages_result) :
  Forall item_within_limits (default [] (pages result)) ↔
  _enforce_content_limits result = result.
Proof.
  unfold _enforce_content_limits. destruct result as [[ps|]]; simpl; [|done].
  split.
  - intros Hall. f_equal. f_equal. apply fmap_id_Forall.
    eapply Forall_impl; [exact Hall|]. apply enforce_item_fixed.
  - intros [= Heq]. rewrite <- Heq.
    apply Forall_fmap, Forall_forall. intros item _. apply enforce_item_within.
Qed.

Lemma enforce_content_limits_keeps_conforming_witness :
  _enforce_content_limits
    (mkPages (Some [NotADict;
                    PageDict (mkPage (Some "overview") (Some "Builds software.")
                                     None None None [("salary", "$90k")]);
                    PageDict (mkPage (Some "day_in_life") None
                                     (Some ["Plan"; "Build"; "Test"; "Ship"; "Review"])
                                     None None [])]))
  = mkPages (Some [NotADict;
                   PageDict (mkPage (Some "overview") (Some "Builds software.")
                                    None None None [("salary", "$90k")]);
                   PageDict (mkPage (Some "day_in_life") None
                                    (Some ["Plan"; "Build"; "Test"; "Ship"; "Review"])
                                    None None [])]).
Proof.
  apply (proj1 (enforce_content_limits_keeps_conforming _)).
  cbn [default from_option pages].
  constructor; [exact I|]. constructor.
  - split; [intros _; vm_compute; lia|].
    split; [discriminate | intros [?|?]; discriminate].
  - constructor; [|constructor].
    split; [discriminate|]. split; [|intros [?|?]; discriminate].
    intros _. eexists. split; [reflexivity|]. split; [reflexivity|].
    repeat constructor; vm_compute; lia.
Defined.

(** ** [_get_fallback_pages] *)

Lemma split_ws_filler_skill : (length (split_ws filler_skill) ≤ 4)%nat.
Proof. vm_compute. lia. Qed.

Lemma padded_skills_words (us : list string) :
  Forall (λ s, length (split_ws s) ≤ 4)%nat (take 7 (pad_to 7 filler_skill (take 5 us)))
  ↔ Forall (λ s, length (split_ws s) ≤ 4)%nat (take 5 us).
Proof.
  assert (Hlen : length (pad_to 7 filler_skill (take 5 us)) = 7%nat).
  { apply pad_to_length. rewrite length_take. lia. }
  rewrite take_ge by lia. unfold pad_to. rewrite Forall_app. split.
  - by intros [H _].
  - intros H. split; [done|]. apply Forall_replicate, split_ws_filler_skill.
Qed.

Lemma overview_page_within (role_name : string) (keys : list (string * string)) :
  within_limits
    (mkPage (Some "overview")
            (Some ("A " +:+ role_name +:+ " is a professional role in the tech industry."))
            None None None keys)
  ↔ (String.length role_name ≤ 103)%nat.
Proof.
  unfold within_limits. page_simpl. cbn [from_option id].
  rewrite !string_length_app.
  change (String.length "A ") with 2%nat.
  change (String.length " is a professional role in the tech industry.") with 45%nat.
  split.
  - intros [H _]. specialize (H eq_refl). lia.
  - intros H. split; [intros _; lia|].
    split; [discriminate | intros [?|?]; discriminate].
Qed.

Lemma tasks_page_within (ts : list string) :
  length ts = 5%nat → Forall (λ t, String.length t ≤ 100)%nat ts →
  within_limits (mkPage (Some "day_in_life") None (Some ts) None None []).
Proof.
  intros Hlen Hall. unfold within_limits. page_simpl.
  split; [discriminate|]. split; [|intros [?|?]; discriminate].
  intros _. by exists ts.
Qed.

Lemma skills_page_within (ty : string) (ss : list string) (text : string) :
  ty = "sweet_spots" ∨ ty = "areas_for_growth" →
  length ss = 7%nat →
  within_limits (mkPage (Some ty) None None (Some ss) (Some (substring 0 150 text)) [])
  ↔ Forall (λ s, length (split_ws s) ≤ 4)%nat ss.
Proof.
  intros Hty Hlen. unfold within_limits. page_simpl. cbn [from_option id].
  split.
  - intros (_ & _ & H).
    destruct H as [(ss' & [= <-] & _ & Hall) _]; [|done].
    destruct Hty as [->| ->]; [by left | by right].
  - intros Hall.
    split; [destruct Hty as [->| ->]; discriminate|].
    split; [destruct Hty as [->| ->]; discriminate|].
    intros _. split; [by exists ss|].
    rewrite string_length_prefix. lia.
Qed.

Lemma fallback_pages_within_iff (role_name current_role : string)
    (user_skills : option (list string)) :
  Forall item_within_limits
    (default [] (pages (_get_fallback_pages role_name current_role user_skills)))
  ↔ (String.length role_name ≤ 103)%nat ∧
    Forall (λ s, length (split_ws s) ≤ 4)%nat (take 5 (default [] user_skills)).
Proof.
  unfold _get_fallback_pages.
  destruct (default [] user_skills) as [|u us]; cbv zeta;
    cbn [from_option id pages]; rewrite !Forall_cons, Forall_nil;
    cbn [item_within_limits]; rewrite overview_page_within.
  - rewrite !skills_page_within by (by auto).
    split; [intros (H & _); by split|]. intros [H _]. split; [done|].
    split; [apply tasks_page_within; [done | repeat constructor; vm_compute; lia]|].
    split; [repeat constructor; vm_compute; lia|].
    split; [repeat constructor; vm_compute; lia | done].
  - rewrite (skills_page_within "areas_for_growth") by (by auto).
    rewrite skills_page_within; [|by left|].
    + rewrite padded_skills_words. split; [intros (H & _ & H' & _); by split|].
      intros [H H']. split; [done|].
      split; [apply tasks_page_within; [done | repeat constructor; vm_compute; lia]|].
      split; [done|]. split; [repeat constructor; vm_compute; lia | done].
    + rewrite take_ge; [apply pad_to_length|rewrite pad_to_length];
        rewrite ?length_take; lia.
Qed.

(** X18. The fallback pages respect the content limits exactly when the
    target role name has at most 103 characters and each of the first five
    user skills has at most 4 words: the fallback is built without going
    through [_enforce_content_limits], so a longer role name gives an
    overview description of more than 150 characters. *)
Theorem fallback_pages_within_limits (role_name current_role : string)
    (user_skills : option (list string)) :
  Forall item_within_limits
    (default [] (pages (_get_fallback_pages role_name current_role user_skills)))
  ↔ (String.length role_name ≤ 103)%nat ∧
    Forall (λ s, length (split_ws s) ≤ 4)%nat (take 5 (default [] user_skills)).
Proof. apply fallback_pages_within_iff. Qed.

(** * Properties of startup *)











(** * Properties of the generated pages *)

(** ** Fenced code blocks *)

Lemma string_app_cons (c : ascii) (a b : string) :
  String c a +:+ b = String c (a +:+ b).
Proof. reflexivity. Qed.

Lemma string_app_nil_l (s : string) : "" +:+ s = s.
Proof. reflexivity. Qed.

Lemma string_app_nil_r (s : string) : s +:+ "" = s.
Proof. induction s as [|c s IH]; [done|]. by rewrite string_app_cons, IH. Qed.

Lemma string_app_assoc (a b c : string) : (a +:+ b) +:+ c = a +:+ (b +:+ c).
Proof.
  induction a as [|x a IH]; [done|]. by rewrite !string_app_cons, IH.
Qed.

Lemma prefix_nil (s : string) : String.prefix "" s = true.
Proof. by destruct s. Qed.

Lemma prefix_app (a b : string) : String.prefix a (a +:+ b) = true.
Proof.
  induction a as [|x a IH]; [apply prefix_nil|].
  rewrite string_app_cons. simpl. by destruct (Ascii.ascii_dec x x).
Qed.

Lemma prefix_app_l (p q s : string) :
  String.prefix (p +:+ q) s = true → String.prefix p s = true.
Proof.
  revert s. induction p as [|x p IH]; intros s; [intros _; apply prefix_nil|].
  destruct s as [|y s]; simpl; [done|].
  destruct (Ascii.ascii_dec x y); [apply IH | done].
Qed.

Lemma prefix_first (x y : ascii) (sep s : string) :
  x ≠ y → String.prefix (String x sep) (String y s) = false.
Proof. intros Hne. simpl. by destruct (Ascii.ascii_dec x y). Qed.

Lemma contains_prefix (sep s : string) :
  String.prefix sep s = true → contains sep s = true.
Proof. intros H. destruct s; cbn [contains]; by rewrite H. Qed.

Lemma contains_app_r (sep a b : string) :
  contains sep b = true → contains sep (a +:+ b) = true.
Proof.
  intros H. induction a as [|x a IH]; [done|].
  rewrite string_app_cons. cbn [contains]. rewrite IH. apply orb_true_r.
Qed.

Lemma contains_longer (p q s : string) :
  contains (p +:+ q) s = true → contains p s = true.
Proof.
  induction s as [|y s IH]; cbn [contains].
  - rewrite !orb_false_r. apply prefix_app_l.
  - intros [H|H]%orb_true_iff.
    + apply prefix_app_l in H. by rewrite H.
    + rewrite (IH H). apply orb_true_r.
Qed.

Lemma no_backtick_cons (c : ascii) (s : string) :
  contains "`" (String c s) = false → c ≠ "`"%char ∧ contains "`" s = false.
Proof.
  cbn [contains]. intros [H1 H2]%orb_false_iff. split; [|done].
  intros ->. simpl in H1. by rewrite prefix_nil in H1.
Qed.

Lemma split_from_nonempty (sep : string) (skip : nat) (s : string) :
  split_from sep skip s ≠ [].
Proof.
  revert skip. induction s as [|c s IH]; intros skip; simpl; [done|].
  destruct skip as [|skip]; [|apply IH].
  destruct (match sep with "" => _ | String _ _ => _ end); [done|].
  by destruct (split_from sep 0 s).
Qed.

Lemma split_from_pieces (sep : string) (skip : nat) (s : string) :
  split_from sep skip s
  = part 0 (split_from sep skip s) :: tail (split_from sep skip s).
Proof.
  pose proof (split_from_nonempty sep skip s).
  by destruct (split_from sep skip s).
Qed.

Lemma split_from_skip (sep t r : string) :
  split_from sep (String.length t) (t +:+ r) = split_from sep 0 r.
Proof.
  induction t as [|x t IH]; [done|]. rewrite string_app_cons. exact IH.
Qed.

Lemma split_at_sep (x : ascii) (sep r : string) :
  split_from (String x sep) 0 (String x sep +:+ r)
  = "" :: split_from (String x sep) 0 r.
Proof.
  change (String x sep +:+ r) with (String x (sep +:+ r)).
  cbn [split_from].
  change (String.prefix (String x sep) (String x (sep +:+ r)))
    with (String.prefix (String x sep) (String x sep +:+ r)).
  rewrite prefix_app.
  replace (String.length (String x sep) - 1)%nat with (String.length sep)
    by (cbn [String.length]; lia).
  by rewrite split_from_skip.
Qed.

Lemma split_body (sep body rest : string) :
  contains "`" body = false →
  split_from (String "`" sep) 0 (body +:+ rest)
  = (body +:+ part 0 (split_from (String "`" sep) 0 rest))
      :: tail (split_from (String "`" sep) 0 rest).
Proof.
  induction body as [|c body IH]; intros Hb.
  - apply split_from_pieces.
  - apply no_backtick_cons in Hb as [Hc Hb].
    change (String c body +:+ rest) with (String c (body +:+ rest)).
    cbn [split_from]. rewrite prefix_first by done.
    by rewrite (IH Hb).
Qed.

Lemma split_fenced (sep body rest : string) :
  contains "`" body = false →
  str_split (String "`" sep) (body +:+ String "`" sep +:+ rest)
  = body :: str_split (String "`" sep) rest.
Proof.
  intros Hb. unfold str_split.
  by rewrite split_body, split_at_sep, string_app_nil_r.
Qed.

Lemma split_no_fence (sep body : string) :
  contains "`" body = false → str_split (String "`" sep) body = [body].
Proof.
  intros Hb. unfold str_split.
  rewrite <- (string_app_nil_r body) at 1. rewrite split_body by done.
  cbn [split_from part nth tail]. by rewrite string_app_nil_r.
Qed.

Lemma piece_no_match (sep : string) (c : ascii) (s : string) :
  String.prefix sep (String c s) = false →
  part 0 (split_from sep 0 (String c s)) = String c (part 0 (split_from sep 0 s)).
Proof.
  intros Hp. cbn [split_from]. rewrite Hp.
  by rewrite (split_from_pieces sep 0 s).
Qed.

Lemma prefix_same (x : ascii) (sep s : string) :
  String.prefix (String x sep) (String x s) = String.prefix sep s.
Proof. simpl. by destruct (Ascii.ascii_dec x x). Qed.

Lemma no_backtick_first (rest : string) :
  String.prefix "`" rest = false →
  rest = "" ∨ ∃ c r, rest = String c r ∧ "`"%char ≠ c.
Proof.
  destruct rest as [|c r]; [by left|]. intros Hp. right. exists c, r.
  split; [done|]. intros <-. by rewrite prefix_same, prefix_nil in Hp.
Qed.

Lemma piece_after_fence (rest : string) :
  String.prefix "`" rest = false →
  part 0 (split_from "```json" 0 ("```" +:+ rest)) = "" ∨
  ∃ Q, part 0 (split_from "```json" 0 ("```" +:+ rest)) = "```" +:+ Q.
Proof.
  intros Hrest.
  change ("```" +:+ rest) with (String "`" (String "`" (String "`" rest))).
  destruct (String.prefix "```json" (String "`" (String "`" (String "`" rest)))) eqn:Hp.
  { left. cbn [split_from]. by rewrite Hp. }
  right. exists (part 0 (split_from "```json" 0 rest)).
  assert (H2 : String.prefix "```json" (String "`" (String "`" rest)) = false).
  { destruct (no_backtick_first rest Hrest) as [->|(c & r & -> & Hc)]; [done|].
    by rewrite !prefix_same, prefix_first. }
  assert (H1 : String.prefix "```json" (String "`" rest) = false).
  { destruct (no_backtick_first rest Hrest) as [->|(c & r & -> & Hc)]; [done|].
    by rewrite !prefix_same, prefix_first. }
  by rewrite !piece_no_match.
Qed.

Lemma first_piece_of_block (body Q : string) :
  contains "`" body = false →
  Q = "" ∨ (∃ Q', Q = "```" +:+ Q') →
  part 0 (str_split "```" (body +:+ Q)) = body.
Proof.
  intros Hb [->|[Q' ->]].
  - by rewrite string_app_nil_r, split_no_fence.
  - by rewrite split_fenced.
Qed.

(** X21. The extraction of the JSON text from an answer.  An answer without
    a triple backtick is taken as it is.  From an answer with a block opened
    by a [json] fence, the stripped content of the block is taken, when
    neither the text before the fence nor the content has a backtick and the
    text after the closing fence does not start with one.  The same holds
    for a block opened by a plain fence in an answer that has no [json]
    fence. *)
Theorem extract_json_block_spec (pre body rest : string) :
  (contains "```" rest = false → extract_json_block rest = rest) ∧
  (contains "`" pre = false → contains "`" body = false →
   String.prefix "`" rest = false →
   extract_json_block (pre +:+ ("```json" +:+ (body +:+ ("```" +:+ rest))))
   = strip body) ∧
  (contains "`" pre = false → contains "`" body = false →
   contains "```json" (pre +:+ ("```" +:+ (body +:+ ("```" +:+ rest)))) = false →
   extract_json_block (pre +:+ ("```" +:+ (body +:+ ("```" +:+ rest))))
   = strip body).
Proof.
  split; [|split].
  - intros Hno. unfold extract_json_block. rewrite Hno.
    destruct (contains "```json" rest) eqn:Hj; [|done].
    apply (contains_longer "```" "json") in Hj. congruence.
  - intros Hpre Hbody Hrest. unfold extract_json_block.
    rewrite contains_app_r by apply contains_prefix, prefix_app.
    rewrite (split_fenced "``json" pre) by done.
    change (part 1 (pre :: ?l)) with (part 0 l).
    unfold str_split at 2. rewrite (split_body "``json" body) by done.
    cbn [part nth].
    f_equal. apply first_piece_of_block; [done|].
    destruct (piece_after_fence rest Hrest) as [->|[Q ->]]; eauto.
  - intros Hpre Hbody Hno. unfold extract_json_block. rewrite Hno.
    rewrite contains_app_r by apply contains_prefix, prefix_app.
    rewrite (split_fenced "``" pre), (split_fenced "``" body) by done.
    cbn [part nth]. by rewrite split_no_fence.
Qed.

Lemma extract_json_block_spec_witness :
  extract_json_block "Here it is: ```json {} ``` Done." = "{}".
Proof.
  refine (proj1 (proj2 (extract_json_block_spec "Here it is: " " {} " " Done.")) _ _ _);
    reflexivity.
Defined.

(** ** [generate_role_pages] and its route *)


(** X22. [generate_role_pages] raises [AttributeError] when the metrics are
    [None] and otherwise returns whatever the model answers: the fallback
    pages when the model or the parsing fails, else the parsed pages put
    within the content limits.  So the pages it returns are within the
    limits whenever the role name has at most 103 characters and the first
    five user skills have at most 4 words each. *)
Theorem generate_role_pages_outcome
    (generate_content : string → option string → gmap string Z → list string
                        → option string)
    (json_loads : string → option pages_result)
    (role_name : string) (current_role : option string)
    (metrics : option (gmap string Z)) (user_skills : option (list string)) :
  let run := generate_role_pages generate_content json_loads role_name current_role
               metrics user_skills in
  let fallback := _get_fallback_pages role_name (default "None" current_role)
                    (Some (default [] user_skills)) in
  match metrics with
  | None => run = Raise AttributeError
  | Some m =>
      ∃ result, run = Ret result ∧
        match generate_content role_name current_role m (default [] user_skills) with
        | None => result = fallback
        | Some text =>
            match json_loads (extract_json_block (strip text)) with
            | None => result = fallback
            | Some parsed =>
                result = _enforce_content_limits parsed ∧
                Forall item_within_limits (default [] (pages result))
            end
        end ∧
        ((String.length role_name ≤ 103)%nat →
         Forall (λ s, length (split_ws s) ≤ 4)%nat (take 5 (default [] user_skills)) →
         Forall item_within_limits (default [] (pages result)))
  end.
Proof.
  intros run fallback. subst run. unfold generate_role_pages.
  destruct metrics as [m|]; [|done]. fold fallback.
  assert (Hfb : (String.length role_name ≤ 103)%nat →
                Forall (λ s, length (split_ws s) ≤ 4)%nat (take 5 (default [] user_skills)) →
                Forall item_within_limits (default [] (pages fallback))).
  { intros Hn Hs. by apply fallback_pages_within_iff. }
  destruct (generate_content role_name current_role m (default [] user_skills))
    as [text|]; [|by exists fallback].
  destruct (json_loads (extract_json_block (strip text))) as [parsed|];
    [|by exists fallback].
  exists (_enforce_content_limits parsed).
  pose proof (enforce_content_limits_within parsed). done.
Qed.

